(** * libkv, Redis backend: a shallow embedding of [store/redis/redis.go]

    The adapter synthesises a versioned key-value store (compare-and-swap,
    directory listing, subtree deletion) on top of a flat engine.  The
    development has these layers:

    - [Codec]: the versioned envelope and its JSON wire format
      ([versionedValue.marshal] / [versionedValue.unmarshal]);
    - [Engine]: an in-memory model of the Redis commands the adapter issues
      through [gopkg.in/redis.v3], with a wall clock and a schedule of
      transport faults;
    - the adapter itself (section [Adapter]), parametrised by the key
      normaliser [store.Normalize], which lives in another package;
    - the round trip of the codec, the behaviour of the commands and of the
      adapter's calls, and the invariant that the engine holds envelopes
      only;
    - the properties the specification states, one theorem each. *)

From Stdlib Require Import ZArith NArith List Lia.
From Stdlib Require Import Strings.Byte Strings.String Strings.Ascii.
From stdpp Require Import gmap strings list fin_maps.

Local Open Scope N_scope.

(* ===================================================================== *)
(** * The versioned value codec *)
(* ===================================================================== *)

Module Codec.

(** Go's [[]byte]: a nil slice and an empty slice are different values, and
    [encoding/json] writes them differently, so the embedding keeps both. *)
Definition bytes : Type := option (list byte).

(** [type versionedValue struct { Value []byte; Version uint64 }].
    [Version] is a [uint64]: an [N] below [2^64]. *)
Record versionedValue : Type := mkVersionedValue {
  Value : bytes;
  Version : N
}.

Definition uint64_max : N := 18446744073709551615.

Definition is_uint64 (n : N) : Prop := n <= uint64_max.

(** ** Bytes as numbers *)

Definition byte_of_N (n : N) : byte :=
  match Byte.of_N n with
  | Some b => b
  | None => x00
  end.

Definition quote : byte := x22.      (* the double quote *)
Definition pad : byte := x3d.        (* '=' *)
Definition lbrace : byte := x7b.
Definition rbrace : byte := x7d.
Definition colon : byte := x3a.
Definition comma : byte := x2c.

(** ** Base64, standard alphabet with padding ([base64.StdEncoding]) *)

Definition encodeStd : list byte :=
  list_byte_of_string
    "ABCDEFGHIJKLMNOPQRSTUVWXYZabcdefghijklmnopqrstuvwxyz0123456789+/".

(** [enc.encode[v & 0x3F]] *)
Definition enc64 (v : N) : byte := nth (N.to_nat v) encodeStd x00.

Fixpoint index_of (b : byte) (l : list byte) (i : N) : option N :=
  match l with
  | [] => None
  | c :: l' => if Byte.eqb b c then Some i else index_of b l' (N.succ i)
  end.

(** [enc.decodeMap[c]]; [None] stands for the invalid marker [0xFF]. *)
Definition dec64 (c : byte) : option N := index_of c encodeStd 0.

(** [Encoding.Encode]: three source bytes become four digits; a final group
    of one or two bytes is padded with ['=']. *)
Fixpoint b64_encode (src : list byte) : list byte :=
  match src with
  | [] => []
  | [a] =>
      let a := Byte.to_N a in
      [enc64 (a / 4); enc64 ((a mod 4) * 16); pad; pad]
  | [a; b] =>
      let a := Byte.to_N a in
      let b := Byte.to_N b in
      [enc64 (a / 4); enc64 ((a mod 4) * 16 + b / 16);
       enc64 ((b mod 16) * 4); pad]
  | a :: b :: c :: rest =>
      let a := Byte.to_N a in
      let b := Byte.to_N b in
      let c := Byte.to_N c in
      enc64 (a / 4) :: enc64 ((a mod 4) * 16 + b / 16)
        :: enc64 ((b mod 16) * 4 + c / 64) :: enc64 (c mod 64)
        :: b64_encode rest
  end.

(** [Encoding.Decode] on a quantum of four digits [d1 d2 d3 d4]. *)
Definition quantum3 (d1 d2 d3 d4 : N) : list byte :=
  [byte_of_N (d1 * 4 + d2 / 16);
   byte_of_N ((d2 mod 16) * 16 + d3 / 4);
   byte_of_N ((d3 mod 4) * 64 + d4)].

Definition quantum2 (d1 d2 d3 : N) : list byte :=
  [byte_of_N (d1 * 4 + d2 / 16);
   byte_of_N ((d2 mod 16) * 16 + d3 / 4)].

Definition quantum1 (d1 d2 : N) : list byte :=
  [byte_of_N (d1 * 4 + d2 / 16)].

(** Padding may only close the input; the decoder is the non-strict one of
    [StdEncoding] (the unused low bits of the last digit are not checked). *)
Fixpoint b64_decode (src : list byte) : option (list byte) :=
  match src with
  | [] => Some []
  | c1 :: c2 :: c3 :: c4 :: rest =>
      match dec64 c1, dec64 c2 with
      | Some d1, Some d2 =>
          if Byte.eqb c3 pad then
            if Byte.eqb c4 pad then
              match rest with
              | [] => Some (quantum1 d1 d2)
              | _ :: _ => None
              end
            else None
          else
            match dec64 c3 with
            | None => None
            | Some d3 =>
                if Byte.eqb c4 pad then
                  match rest with
                  | [] => Some (quantum2 d1 d2 d3)
                  | _ :: _ => None
                  end
                else
                  match dec64 c4 with
                  | None => None
                  | Some d4 =>
                      match b64_decode rest with
                      | Some out => Some (quantum3 d1 d2 d3 d4 ++ out)
                      | None => None
                      end
                  end
            end
      | _, _ => None
      end
  | _ => None
  end.

(** ** Unsigned decimals, base 10
       ([strconv.AppendUint] / [strconv.ParseUint]) *)

Definition digit (d : N) : byte := byte_of_N (48 + d).

Definition is_digit (c : byte) : bool :=
  (48 <=? Byte.to_N c) && (Byte.to_N c <=? 57).

(** [formatBits]: digits are produced from the least significant one into a
    buffer that is filled from its end; [fuel] is the size of that buffer. *)
Fixpoint format_digits (fuel : nat) (u : N) (acc : list byte) : list byte :=
  match fuel with
  | O => acc
  | S fuel' =>
      let acc' := digit (u mod 10) :: acc in
      if u <? 10 then acc' else format_digits fuel' (u / 10) acc'
  end.

Definition FormatUint (u : N) : list byte := format_digits 20 u [].

(** [ParseUint(s, 10, 64)]: [cutoff] is [maxUint64/10 + 1]; the multiplication
    and the addition are the 64-bit ones, the checks are the overflow checks
    of the source. *)
Definition cutoff : N := 1844674407370955162.

Definition wrap64 (n : N) : N := n mod 18446744073709551616.

Fixpoint parse_digits (n : N) (s : list byte) : option N :=
  match s with
  | [] => Some n
  | c :: s' =>
      if is_digit c then
        let d := Byte.to_N c - 48 in
        if cutoff <=? n then None
        else
          let n10 := wrap64 (n * 10) in
          let n1 := wrap64 (n10 + d) in
          if (n1 <? n10) || (uint64_max <? n1) then None
          else parse_digits n1 s'
      else None
  end.

Definition ParseUint (s : list byte) : option N :=
  match s with
  | [] => None
  | _ :: _ => parse_digits 0 s
  end.

(** The JSON number grammar has no leading zero except in ["0"] itself. *)
Definition json_uint_literal (s : list byte) : bool :=
  match s with
  | [] => false
  | [c] => is_digit c
  | c :: _ :: _ => is_digit c && negb (Byte.eqb c x30)
  end && forallb is_digit s.

(** ** Splitting input *)

Fixpoint span (p : byte -> bool) (s : list byte) : list byte * list byte :=
  match s with
  | [] => ([], [])
  | c :: s' =>
      if p c then let '(a, b) := span p s' in (c :: a, b) else ([], s)
  end.

Fixpoint strip_prefix (pre s : list byte) : option (list byte) :=
  match pre, s with
  | [], _ => Some s
  | _ :: _, [] => None
  | p :: pre', c :: s' => if Byte.eqb p c then strip_prefix pre' s' else None
  end.

(** ** The envelope as [encoding/json] writes it

    [json.Marshal] of the struct writes the exported fields in declaration
    order under their Go names: a [[]byte] as a base64 string ([null] for a
    nil slice), a [uint64] as a decimal number. *)

Definition key_Value : list byte :=
  [lbrace; quote] ++ list_byte_of_string "Value" ++ [quote; colon].

Definition key_Version : list byte :=
  [comma; quote] ++ list_byte_of_string "Version" ++ [quote; colon].

Definition json_null : list byte := list_byte_of_string "null".

Definition encode_bytes (v : bytes) : list byte :=
  match v with
  | None => json_null
  | Some b => quote :: b64_encode b ++ [quote]
  end.

(** [func (v *versionedValue) marshal() []byte].  [json.Marshal] cannot fail
    on this struct, so the panic branch of the source is dead. *)
Definition marshal (v : versionedValue) : list byte :=
  key_Value ++ encode_bytes (Value v)
    ++ key_Version ++ FormatUint (Version v) ++ [rbrace].

Definition decode_bytes (s : list byte) : option (bytes * list byte) :=
  match strip_prefix json_null s with
  | Some rest => Some (None, rest)
  | None =>
      match s with
      | c :: s' =>
          if Byte.eqb c quote then
            let '(body, rest) := span (fun c => negb (Byte.eqb c quote)) s' in
            match rest, b64_decode body with
            | _ :: rest', Some b => Some (Some b, rest')
            | _, _ => None
            end
          else None
      | [] => None
      end
  end.

(** [func (v *versionedValue) unmarshal(in []byte)], called on a zero
    [versionedValue].  [None] is the panic of the source.  The decoder reads
    the documents [marshal] writes; [encoding/json] is more liberal on other
    inputs (white space, field order, unknown fields), which the adapter
    never writes. *)
Definition unmarshal (input : list byte) : option versionedValue :=
  match strip_prefix key_Value input with
  | None => None
  | Some s1 =>
      match decode_bytes s1 with
      | None => None
      | Some (v, s2) =>
          match strip_prefix key_Version s2 with
          | None => None
          | Some s3 =>
              let '(num, s4) := span is_digit s3 in
              if json_uint_literal num then
                match ParseUint num, s4 with
                | Some n, [c] =>
                    if Byte.eqb c rbrace
                    then Some (mkVersionedValue v n) else None
                | _, _ => None
                end
              else None
          end
      end
  end.

End Codec.


(* ===================================================================== *)
(** * Errors, outcomes and the world the adapter runs in *)
(* ===================================================================== *)

(** The error values the adapter returns or passes through. *)
Inductive error : Type :=
| ErrKeyNotFound                      (* store.ErrKeyNotFound *)
| ErrKeyModified                      (* store.ErrKeyModified *)
| ErrNotImplemented
| ErrMultipleEndpointsUnsupported
| ErrTLSUnsupported
| RedisNil                            (* redis.Nil: the key has no value *)
| RedisError (msg : string).          (* any other reply or transport error *)

Definition error_eqb (a b : error) : bool :=
  match a, b with
  | ErrKeyNotFound, ErrKeyNotFound
  | ErrKeyModified, ErrKeyModified
  | ErrNotImplemented, ErrNotImplemented
  | ErrMultipleEndpointsUnsupported, ErrMultipleEndpointsUnsupported
  | ErrTLSUnsupported, ErrTLSUnsupported
  | RedisNil, RedisNil => true
  | RedisError m, RedisError m' => String.eqb m m'
  | _, _ => false
  end.

(** What a call comes to: a value, a returned error, a Go panic, or a loop
    that has not finished within the fuel it was given. *)
Inductive result (A : Type) : Type :=
| Ok (a : A)
| Err (e : error)
| Panic
| OutOfFuel.

Arguments Ok {A} a.
Arguments Err {A} e.
Arguments Panic {A}.
Arguments OutOfFuel {A}.

(** One stored key: the string value and, when a TTL was given, the instant
    (nanoseconds) at which the engine drops it. *)
Record entry : Type := mkEntry {
  payload : string;
  expire_at : option Z
}.

(** The engine's keyspace, the wall clock in nanoseconds since the epoch, and
    the schedule of transport faults: the next command fails when the head
    of [faults] is [true]; an empty schedule means every command gets
    through. *)
Record World : Type := mkWorld {
  db : gmap string entry;
  now : Z;
  faults : list bool
}.

(** Calls that talk to the engine thread the world through. *)
Definition M (A : Type) : Type := World -> result A * World.

Definition ret {A : Type} (a : A) : M A := fun w => (Ok a, w).

Definition fail {A : Type} (e : error) : M A := fun w => (Err e, w).

(** A call that ends without touching the world. *)
Definition finish {A : Type} (r : result A) : M A := fun w => (r, w).

(** [if err != nil { return ..., err }]: the first failure ends the call. *)
Definition bind {A B : Type} (c : M A) (k : A -> M B) : M B :=
  fun w =>
    match c w with
    | (Ok a, w') => k a w'
    | (Err e, w') => (Err e, w')
    | (Panic, w') => (Panic, w')
    | (OutOfFuel, w') => (OutOfFuel, w')
    end.

#[global] Instance M_ret : MRet M := @ret.
#[global] Instance M_bind : MBind M := fun A B k c => bind c k.

(* ===================================================================== *)
(** * The engine: the Redis commands the adapter issues *)
(* ===================================================================== *)

Module Engine.

Definition transport_error : error := RedisError "i/o timeout".

(** Every command first meets the transport. *)
Definition command {A : Type} (body : World -> result A * World) : M A :=
  fun w =>
    match faults w with
    | true :: fs => (Err transport_error, mkWorld (db w) (now w) fs)
    | false :: fs => body (mkWorld (db w) (now w) fs)
    | [] => body w
    end.

(** Durations are nanoseconds ([time.Duration]). *)
Definition time_Millisecond : Z := 1000000.
Definition time_Second : Z := 1000000000.

(** The client writes a TTL after [PX] in whole milliseconds, or after [EX]
    in whole seconds when it is a whole number of seconds ([usePrecise],
    [formatMs], [formatSec]); the divisions are Go's, towards zero. *)
Definition usePrecise (dur : Z) : bool :=
  (dur <? time_Second)%Z || negb (Z.rem dur time_Second =? 0)%Z.

Definition formatMs (dur : Z) : Z := Z.quot dur time_Millisecond.

Definition formatSec (dur : Z) : Z := Z.quot dur time_Second.

(** The TTL the engine receives for an expiration, back in nanoseconds. *)
Definition ttl_sent (expiration : Z) : Z :=
  if usePrecise expiration
  then (formatMs expiration * time_Millisecond)%Z
  else (formatSec expiration * time_Second)%Z.

(** The engine's reply to an expire time that is not positive. *)
Definition invalid_expire_time : error :=
  RedisError "ERR invalid expire time in set".

(** The instant a key written now expires: none unless the expiration is
    positive, else now plus the TTL as it was sent. *)
Definition deadline (w : World) (expiration : Z) : option Z :=
  if (0 <? expiration)%Z then Some (now w + ttl_sent expiration)%Z else None.

Definition store (key value : string) (expiration : Z) (w : World) : World :=
  mkWorld (<[key := mkEntry value (deadline w expiration)]> (db w))
          (now w) (faults w).

(** [Set]: [SET key value], with [PX ms] or [EX s] when the expiration is
    positive; the engine rejects an expire time of zero, which is what a
    positive expiration under one millisecond becomes. *)
Definition Set_ (key value : string) (expiration : Z) : M unit :=
  command (fun w =>
    if (0 <? expiration)%Z then
      if (0 <? ttl_sent expiration)%Z
      then (Ok tt, store key value expiration w)
      else (Err invalid_expire_time, w)
    else (Ok tt, store key value expiration w)).

(** [GET key]: [redis.Nil] when the key has no value. *)
Definition Get (key : string) : M string :=
  command (fun w =>
    match db w !! key with
    | Some e => (Ok (payload e), w)
    | None => (Err RedisNil, w)
    end).

(** [SetNX]: [SETNX key value] when the expiration is zero, else
    [SET key value PX ms NX] (or [EX s]).  It writes only when the key has no
    value, and replies whether it wrote; a reply of [false] is not an error.
    With an expiration other than zero the engine first checks the expire
    time, and rejects one that is not positive: a negative expiration, or a
    positive one under one millisecond. *)
Definition SetNX (key value : string) (expiration : Z) : M bool :=
  command (fun w =>
    if (expiration =? 0)%Z || (0 <? ttl_sent expiration)%Z then
      match db w !! key with
      | Some _ => (Ok false, w)
      | None => (Ok true, store key value expiration w)
      end
    else (Err invalid_expire_time, w)).

(** The expirations [Set] and [SetNX] get through the engine. *)
Definition Set_accepts (expiration : Z) : bool :=
  negb (0 <? expiration)%Z || (0 <? ttl_sent expiration)%Z.

Definition SetNX_accepts (expiration : Z) : bool :=
  (expiration =? 0)%Z || (0 <? ttl_sent expiration)%Z.

Definition present (w : World) (key : string) : bool :=
  match db w !! key with
  | Some _ => true
  | None => false
  end.

(** [DEL key...] replies the number of keys it removed; it needs a key. *)
Definition Del (keys : list string) : M N :=
  command (fun w =>
    match keys with
    | [] => (Err (RedisError "wrong number of arguments for 'del'"), w)
    | _ :: _ =>
        (Ok (N.of_nat (length (List.filter (present w) (remove_dups keys)))),
         mkWorld (foldr delete (db w) keys) (now w) (faults w))
    end).

(** [EXISTS key] *)
Definition Exists (key : string) : M bool :=
  command (fun w => (Ok (present w key), w)).

(** [MGET key...]: one slot per key, in order, empty for a missing key. *)
Definition MGet (keys : list string) : M (list (option string)) :=
  command (fun w =>
    match keys with
    | [] => (Err (RedisError "wrong number of arguments for 'mget'"), w)
    | _ :: _ => (Ok (map (fun k => payload <$> db w !! k) keys), w)
    end).

(** Glob patterns: [*] is any run of bytes, [?] any one byte, a backslash
    takes the next byte literally.  Bracket classes are not modelled. *)
Fixpoint glob (p s : string) {struct p} : bool :=
  match p with
  | EmptyString =>
      match s with
      | EmptyString => true
      | String _ _ => false
      end
  | String c p' =>
      let literal (c : ascii) (p' : string) (rec : string -> bool) :=
        match s with
        | String d s' => Ascii.eqb c d && rec s'
        | EmptyString => false
        end in
      if Ascii.eqb c "*" then
        (fix star (s : string) : bool :=
           glob p' s ||
           match s with
           | EmptyString => false
           | String _ s' => star s'
           end) s
      else if Ascii.eqb c "?" then
        match s with
        | String _ s' => glob p' s'
        | EmptyString => false
        end
      else if Ascii.eqb c "\" then
        match p' with
        | String c' p'' => literal c' p'' (glob p'')
        | EmptyString => literal c p' (glob p')
        end
      else literal c p' (glob p')
  end.

Definition keyspace (w : World) : list string := (map_to_list (db w)).*1.

(** [SCAN cursor MATCH pattern COUNT count].  The cursor is a position in
    the keyspace; a call walks [count] keys from it, replies those that
    match, and replies the cursor to resume from, which is [0] once the walk
    has reached the end.  The pattern filters the reply, not the walk.
    To an engine [count] is a hint: how many keys one reply walks is the
    engine's affair, and this engine walks exactly [count].  The properties
    of the adapter are therefore stated on the reply (its cursor and its
    keys), not on the size of the keyspace. *)
Definition Scan (cursor : Z) (pattern : string) (count : Z)
  : M (Z * list string) :=
  command (fun w =>
    if (count <=? 0)%Z then (Err (RedisError "syntax error"), w)
    else
      let ks := keyspace w in
      let page := take (Z.to_nat count) (drop (Z.to_nat cursor) ks) in
      let next := (cursor + count)%Z in
      let next := if (next <? Z.of_nat (length ks))%Z then next else 0%Z in
      (Ok (next, List.filter (glob pattern) page), w)).

(** The clock moves between calls, not during them; keys whose TTL has run
    out by the new instant are dropped. *)
Definition alive (t : Z) (e : entry) : bool :=
  match expire_at e with
  | Some d => (t <? d)%Z
  | None => true
  end.

Definition advance (d : Z) (w : World) : World :=
  let t := (now w + d)%Z in
  mkWorld (filter (fun kv => alive t kv.2 = true) (db w)) t (faults w).

End Engine.

(* ===================================================================== *)
(** * The adapter *)
(* ===================================================================== *)

(** [store.KVPair] *)
Record KVPair : Type := mkKVPair {
  Key : string;
  Value : Codec.bytes;
  LastIndex : N
}.

(** [store.WriteOptions]; the adapter reads the TTL only. *)
Record WriteOptions : Type := mkWriteOptions {
  TTL : Z
}.

Definition noExpiration : Z := 0.

(** [*redis.Options] as [New] fills it in; durations are nanoseconds. *)
Record Options : Type := mkOptions {
  Addr : string;
  DialTimeout : Z;
  ReadTimeout : Z;
  WriteTimeout : Z
}.

(** [type Redis struct { client *redis.Client }] *)
Record Redis : Type := mkRedis {
  client : Options
}.

Definition Second : Z := 1000000000.

(** [func New(endpoints []string, options *store.Config) (store.Store, error)].
    [store.Config] is declared in another package and only tested against
    nil, so the function is generic in it.  [endpoints[0]] on an empty slice
    is a run-time panic. *)
Definition New {Config : Type} (endpoints : list string)
    (options : option Config) : result Redis :=
  if (1 <? length endpoints)%nat then Err ErrMultipleEndpointsUnsupported
  else
    match options with
    | Some _ => Err ErrTLSUnsupported
    | None =>
        match endpoints !! 0%nat with
        | None => Panic
        | Some addr =>
            Ok (mkRedis (mkOptions addr (5 * Second) (30 * Second)
                                   (30 * Second)))
        end
    end.

(** [Time.Nanosecond]: the nanosecond offset within the second,
    in [0, 999999999]. *)
Definition Nanosecond (t : Z) : Z := (t mod Second)%Z.

(** The conversion [uint64(x)] of an [int]. *)
Definition uint64_of_int (x : Z) : N := Z.to_N (x mod 18446744073709551616).

(** [func timeBasedVersion() uint64] *)
Definition timeBasedVersion : M N :=
  fun w => (Ok (uint64_of_int (Nanosecond (now w))), w).

(** Go's [v, err := f()]: the call's value and error side by side. *)
Definition attempt {A : Type} (c : M A) : M (option A * option error) :=
  fun w =>
    match c w with
    | (Ok a, w') => (Ok (Some a, None), w')
    | (Err e, w') => (Ok (None, Some e), w')
    | (Panic, w') => (Panic, w')
    | (OutOfFuel, w') => (OutOfFuel, w')
    end.

(** A channel value; the unsupported calls never touch theirs. *)
Inductive chan (A : Type) : Type := mkChan (id : nat).

(** [store.LockOptions] and [store.Locker] are declared in another package;
    [NewLock] neither reads the former nor builds the latter. *)
Inductive Locker : Type := mkLocker (id : nat).

Section Adapter.

(** [store.Normalize], from the [store] package. *)
Variable normalize : string -> string.

Definition expiration_of (options : option WriteOptions) : Z :=
  match options with
  | Some o => TTL o
  | None => noExpiration
  end.

(** [func (r *Redis) Put(key string, value []byte,
    options *store.WriteOptions) error] *)
Definition Put (key : string) (value : Codec.bytes)
    (options : option WriteOptions) : M unit :=
  let expirationAfter := expiration_of options in
  version ← timeBasedVersion;
  let vv := Codec.mkVersionedValue value version in
  Engine.Set_ (normalize key) (string_of_list_byte (Codec.marshal vv))
              expirationAfter.

(** [func (r *Redis) Get(key string)], returning [*store.KVPair, error] *)
Definition Get (key : string) : M KVPair :=
  '(reply, err) ← attempt (Engine.Get (normalize key));
  match err, reply with
  | Some e, _ =>
      if error_eqb e RedisNil then fail ErrKeyNotFound else fail e
  | None, None => fail RedisNil   (* [attempt] never returns this *)
  | None, Some reply =>
      match Codec.unmarshal (list_byte_of_string reply) with
      | None => finish Panic
      | Some vv =>
          ret (mkKVPair key (Codec.Value vv) (Codec.Version vv))
      end
  end.

(** [func (r *Redis) Delete(key string) error] *)
Definition Delete (key : string) : M unit :=
  _ ← Engine.Del [normalize key]; ret tt.

(** [func (r *Redis) Exists(key string) (bool, error)] *)
Definition Exists (key : string) : M bool :=
  Engine.Exists (normalize key).

Definition startCursor : Z := 0.
Definition endCursor : Z := 0.
Definition defaultCount : Z := 10.

(** The loop of [keys]: [for nextCursor != endCursor { ... }].  Each round
    calls [Scan(startCursor, regex, defaultCount)], as the source does. *)
Fixpoint keys_loop (fuel : nat) (regex : string) (nextCursor : Z)
    (allKeys : list string) : M (list string) :=
  if (nextCursor =? endCursor)%Z then ret allKeys
  else
    match fuel with
    | O => finish OutOfFuel
    | S fuel' =>
        '(nextCursor', keys) ← Engine.Scan startCursor regex defaultCount;
        keys_loop fuel' regex nextCursor' (allKeys ++ keys)
    end.

(** [func (r *Redis) keys(regex string) ([]string, error)] *)
Definition keys (fuel : nat) (regex : string) : M (list string) :=
  '(nextCursor, keys) ← Engine.Scan startCursor regex defaultCount;
  allKeys ← keys_loop fuel regex nextCursor ([] ++ keys);
  if (length allKeys =? 0)%nat then fail ErrKeyNotFound else ret allKeys.

(** The body of the [range replies] loop of [mget]. *)
Fixpoint mget_loop (keys : list string) (index : nat)
    (replies : list (option string)) (pairs : list KVPair)
  : result (list KVPair) :=
  match replies with
  | [] => Ok pairs
  | reply :: replies' =>
      match keys !! index with
      | None => Panic
      | Some key =>
          let sreply :=
            match reply with
            | Some s => s
            | None => EmptyString
            end in
          if String.eqb sreply EmptyString then
            mget_loop keys (S index) replies' pairs
          else
            match Codec.unmarshal (list_byte_of_string sreply) with
            | None => Panic
            | Some vv =>
                mget_loop keys (S index) replies'
                  (pairs ++ [mkKVPair key (Codec.Value vv) (Codec.Version vv)])
            end
      end
  end.

(** [func (r *Redis) mget(keys ...string) ([]*store.KVPair, error)] *)
Definition mget (keys : list string) : M (list KVPair) :=
  replies ← Engine.MGet keys;
  finish (mget_loop keys 0 replies []).

(** [func (r *Redis) List(directory string) ([]*store.KVPair, error)] *)
Definition List (fuel : nat) (directory : string) : M (list KVPair) :=
  let regex := normalize directory +:+ "*" in
  allKeys ← keys fuel regex;
  mget allKeys.

(** [func (r *Redis) DeleteTree(directory string) error] *)
Definition DeleteTree (fuel : nat) (directory : string) : M unit :=
  let regex := normalize directory +:+ "*" in
  allKeys ← keys fuel regex;
  _ ← Engine.Del allKeys; ret tt.

Definition other_than (e : error) (err : option error) : bool :=
  match err with
  | Some e' => negb (error_eqb e' e)
  | None => false
  end.

(** [previous == nil], [existedOne != nil] *)
Definition is_nil {A : Type} (p : option A) : bool :=
  match p with
  | None => true
  | Some _ => false
  end.

(** The write that ends [AtomicPut]. *)
Definition write_new (key : string) (value : Codec.bytes)
    (options : option WriteOptions)
  : M (bool * option KVPair * option error) :=
  let expirationAfter := expiration_of options in
  let nkey := normalize key in
  version ← timeBasedVersion;
  let vv := Codec.mkVersionedValue value version in
  '(_, err) ← attempt
    (Engine.SetNX nkey (string_of_list_byte (Codec.marshal vv))
                  expirationAfter);
  match err with
  | Some e => ret (false, None, Some e)
  | None =>
      ret (true,
           Some (mkKVPair nkey (Codec.Value vv) (Codec.Version vv)),
           None)
  end.

(** [func (r *Redis) AtomicPut(key string, value []byte,
    previous *store.KVPair, options *store.WriteOptions)
    (bool, *store.KVPair, error)].  The block [if previous != nil { ... }]
    either returns an error ([Some e]) or falls through ([None]). *)
Definition AtomicPut (key : string) (value : Codec.bytes)
    (previous : option KVPair) (options : option WriteOptions)
  : M (bool * option KVPair * option error) :=
  '(existedOne, err) ← attempt (Get key);
  if other_than ErrKeyNotFound err then ret (false, None, err)
  else if is_nil previous && negb (is_nil existedOne)
  then ret (false, None, Some ErrKeyModified)
  else
    returned ←
      match previous with
      | None => ret None
      | Some previous =>
          match existedOne with
          | None => ret (Some ErrKeyModified)
          | Some existedOne =>
              (* check existed == previous *)
              if negb (LastIndex existedOne =? LastIndex previous)
              then ret (Some ErrKeyModified)
              else (* ok for now, delete first, so setnx can work *)
                '(_, err) ← attempt (Delete key); ret err
          end
      end;
    match returned with
    | Some e => ret (false, None, Some e)
    | None => write_new key value options
    end.

(** [func (r *Redis) AtomicDelete(key string, previous *store.KVPair)
    (bool, error)] *)
Definition AtomicDelete (key : string) (previous : option KVPair)
  : M (bool * option error) :=
  '(existedOne, err) ← attempt (Get key);
  if other_than ErrKeyNotFound err then ret (false, err)
  else if is_nil previous && negb (is_nil existedOne)
  then ret (false, Some ErrKeyModified)
  else
    returned ←
      match previous with
      | None => ret None
      | Some previous =>
          match existedOne with
          | None => ret (Some ErrKeyModified)
          | Some existedOne =>
              (* check existed == previous *)
              if negb (LastIndex existedOne =? LastIndex previous)
              then ret (Some ErrKeyModified)
              else ret None
          end
      end;
    match returned with
    | Some e => ret (false, Some e)
    | None => '(_, err) ← attempt (Delete key); ret (true, err)
    end.

(** [func (r *Redis) Watch(key string, stopCh <-chan struct{})
    (<-chan *store.KVPair, error)] *)
Definition Watch (key : string) (stopCh : chan unit) : M (chan KVPair) :=
  fail ErrNotImplemented.

(** [func (r *Redis) WatchTree(directory string, stopCh <-chan struct{})
    (<-chan []*store.KVPair, error)] *)
Definition WatchTree (directory : string) (stopCh : chan unit)
  : M (chan (list KVPair)) :=
  fail ErrNotImplemented.

(** [func (r *Redis) NewLock(key string, options *store.LockOptions)
    (store.Locker, error)] *)
Definition NewLock {LockOptions : Type} (key : string)
    (options : option LockOptions) : M Locker :=
  fail ErrNotImplemented.

End Adapter.

(** The ['/']-separated segments of a key, [cur] being the one under way. *)
Fixpoint segments (cur : string) (s : string) : list string :=
  match s with
  | EmptyString => [cur]
  | String c s' =>
      if Ascii.eqb c "/" then cur :: segments EmptyString s'
      else segments (cur +:+ String c EmptyString) s'
  end.

Definition nonempty (s : string) : bool :=
  match s with
  | EmptyString => false
  | String _ _ => true
  end.

(** Modelled from the spec: [store.Normalize] belongs to the [store] package,
    whose source is not part of this development.  The spec describes a
    mapping to a canonical flat key: redundant separators collapsed, the key
    trimmed, a canonical prefix form.  Here: the non-empty ['/']-separated
    segments of the key, each preceded by ['/'].  The adapter's properties
    are proved for every normaliser; this one serves where a concrete key
    is needed. *)
Definition Normalize (key : string) : string :=
  foldr (fun seg acc => "/" +:+ seg +:+ acc) EmptyString
        (List.filter nonempty (segments EmptyString key)).

(** A world with no keys, no pending fault, the clock at [t]. *)
Definition empty_world (t : Z) : World := mkWorld ∅ t [].

Definition text (s : string) : Codec.bytes := Some (list_byte_of_string s).

Definition run {A : Type} (c : M A) (w : World) : World := (c w).2.


(* ===================================================================== *)
(** * Vocabulary of the properties *)
(* ===================================================================== *)

(** Every command gets through: no transport fault is pending. *)
Definition quiet (w : World) : Prop := faults w = [].

(** What the engine holds under a flat key, read as an envelope: nothing, a
    value that is no envelope, or an envelope. *)
Definition envelope (w : World) (k : string)
  : option (option Codec.versionedValue) :=
  (fun e => Codec.unmarshal (list_byte_of_string (payload e))) <$> db w !! k.

(** What is stored under [k], if anything, is an envelope. *)
Definition sound_at (w : World) (k : string) : Prop :=
  envelope w k <> Some None.

(** The data-model invariant: the engine holds envelopes only. *)
Definition sound (w : World) : Prop := forall k, sound_at w k.

(** A call keeps the invariant, however it ends. *)
Definition preserves {A : Type} (c : M A) : Prop :=
  forall w r w', sound w -> c w = (r, w') -> sound w'.

(** A call is a read: however it ends, the keyspace and the clock are as
    they were. *)
Definition reads_only {A : Type} (c : M A) : Prop :=
  forall w r w', c w = (r, w') -> db w' = db w /\ now w' = now w.

(** A call writes under the flat key [k] at most: however it ends, every
    other key holds what it held. *)
Definition touches_only {A : Type} (k : string) (c : M A) : Prop :=
  forall w r w', c w = (r, w') ->
    forall j, j <> k -> db w' !! j = db w !! j.

(** A call does not panic on a world that holds envelopes only. *)
Definition never_panics {A : Type} (c : M A) : Prop :=
  forall w, sound w -> (c w).1 <> Panic.

(** The version currently stored under [k]. *)
Definition stored_version (w : World) (k : string) : option N :=
  match envelope w k with
  | Some (Some vv) => Some (Codec.Version vv)
  | _ => None
  end.

(** The decision table of the compare-and-swap emulation, as the spec
    tabulates it: [true] is "fail with KeyModified". *)
Definition key_modified (previous : option KVPair) (current : option N)
  : bool :=
  match previous, current with
  | None, None => false                       (* create *)
  | None, Some _ => true                      (* asked to create, key exists *)
  | Some _, None => true                      (* expected version is gone *)
  | Some p, Some v => negb (LastIndex p =? v) (* versions must agree *)
  end.

(** The expirations the engine takes from a conditional write: none at
    all, or one millisecond and more.  A negative one, or a positive one
    under a millisecond, goes out as a non-positive [PX] and is turned
    down. *)
Definition ttl_accepted (expiration : Z) : Prop :=
  expiration = 0%Z \/ (Engine.time_Millisecond <= expiration)%Z.

(** The expirations the engine takes from an unconditional write: the
    client sends none unless it is positive. *)
Definition ttl_accepted_by_set (expiration : Z) : Prop :=
  (expiration <= 0)%Z \/ (Engine.time_Millisecond <= expiration)%Z.

(** The stored string of a freshly stamped envelope. *)
Definition sealed (value : Codec.bytes) (w : World) : string :=
  string_of_list_byte
    (Codec.marshal
       (Codec.mkVersionedValue value (uint64_of_int (Nanosecond (now w))))).

(** The pair a present slot of a multi-get becomes, keyed by the key the
    caller passed at that position; an absent or empty slot becomes none. *)
Definition slot_pair (w : World) (k : string) : option KVPair :=
  match db w !! k with
  | None => None
  | Some e =>
      if String.eqb (payload e) EmptyString then None
      else
        match Codec.unmarshal (list_byte_of_string (payload e)) with
        | Some vv => Some (mkKVPair k (Codec.Value vv) (Codec.Version vv))
        | None => None
        end
  end.

(** The scan aggregator as the spec words it: every round resumes from the
    cursor the round before returned.  It differs from [keys_loop] in the
    first argument of [Engine.Scan] only. *)
Fixpoint keys_loop_resuming (fuel : nat) (regex : string) (nextCursor : Z)
    (allKeys : list string) : M (list string) :=
  if (nextCursor =? endCursor)%Z then ret allKeys
  else
    match fuel with
    | O => finish OutOfFuel
    | S fuel' =>
        '(nextCursor', keys) ← Engine.Scan nextCursor regex defaultCount;
        keys_loop_resuming fuel' regex nextCursor' (allKeys ++ keys)
    end.

Definition keys_resuming (fuel : nat) (regex : string) : M (list string) :=
  '(nextCursor, keys) ← Engine.Scan startCursor regex defaultCount;
  allKeys ← keys_loop_resuming fuel regex nextCursor ([] ++ keys);
  if (length allKeys =? 0)%nat then fail ErrKeyNotFound else ret allKeys.

(** The keys of a world that match a pattern. *)
Definition matching (regex : string) (w : World) : list string :=
  List.filter (Engine.glob regex) (Engine.keyspace w).

(** The worlds the adapter can bring an empty engine to, under any fault
    schedule [fs] and any passage of time. *)
Inductive reachable (normalize : string -> string) : World -> Prop :=
| reach_empty (t : Z) (fs : list bool) :
    reachable normalize (mkWorld ∅ t fs)
| reach_advance (d : Z) (w : World) :
    reachable normalize w -> reachable normalize (Engine.advance d w)
| reach_Put (k : string) (v : Codec.bytes) (o : option WriteOptions)
    (w : World) :
    reachable normalize w -> reachable normalize (run (Put normalize k v o) w)
| reach_Get (k : string) (w : World) :
    reachable normalize w -> reachable normalize (run (Get normalize k) w)
| reach_Delete (k : string) (w : World) :
    reachable normalize w -> reachable normalize (run (Delete normalize k) w)
| reach_Exists (k : string) (w : World) :
    reachable normalize w -> reachable normalize (run (Exists normalize k) w)
| reach_List (fuel : nat) (d : string) (w : World) :
    reachable normalize w ->
    reachable normalize (run (List normalize fuel d) w)
| reach_DeleteTree (fuel : nat) (d : string) (w : World) :
    reachable normalize w ->
    reachable normalize (run (DeleteTree normalize fuel d) w)
| reach_AtomicPut (k : string) (v : Codec.bytes) (p : option KVPair)
    (o : option WriteOptions) (w : World) :
    reachable normalize w ->
    reachable normalize (run (AtomicPut normalize k v p o) w)
| reach_AtomicDelete (k : string) (p : option KVPair) (w : World) :
    reachable normalize w ->
    reachable normalize (run (AtomicDelete normalize k p) w).

(** A key written when the clock reads 5 ns, deleted, and the world exactly
    one second after that. *)
Definition first_write : World :=
  run (Put Normalize "k" (text "old") None) (empty_world 5).

Definition one_second_later : World :=
  Engine.advance Second (run (Delete Normalize "k") first_write).

(** A keyspace of eleven keys under one directory, one more than a page of
    the scan: [Put "a/01"] ... [Put "a/11"] on an empty engine. *)
Definition eleven : list string :=
  ["a/01"; "a/02"; "a/03"; "a/04"; "a/05"; "a/06";
   "a/07"; "a/08"; "a/09"; "a/10"; "a/11"].

Definition crowded : World :=
  foldr (fun k w => run (Put Normalize k (text "v") None) w)
        (empty_world 7) eleven.

(** Two keys under directory ["a"] and one under ["b"]. *)
Definition shelf : World :=
  foldr (fun k w => run (Put Normalize k (text "v") None) w)
        (empty_world 7) ["a/b"; "a/c"; "b/d"].

(* ===================================================================== *)
(** * Properties of the codec *)
(* ===================================================================== *)

Module CodecFacts.
Import Codec.

(** Linear arithmetic over quotients and remainders taken as unknowns: the
    facts about them that a goal needs are stated before the call. *)
Ltac hide_divmod :=
  repeat match goal with
    | |- context [N.modulo ?a ?b] =>
        let r := fresh "r" in set (r := N.modulo a b) in *; clearbody r
    | |- context [N.div ?a ?b] =>
        let q := fresh "q" in set (q := N.div a b) in *; clearbody q
    | H : context [N.modulo ?a ?b] |- _ =>
        let r := fresh "r" in set (r := N.modulo a b) in *; clearbody r
    | H : context [N.div ?a ?b] |- _ =>
        let q := fresh "q" in set (q := N.div a b) in *; clearbody q
    end.

Ltac dlia := hide_divmod; lia.

(** ** Bytes *)

Lemma to_N_lt (b : byte) : Byte.to_N b < 256.
Proof. pose proof (Byte.to_N_bounded b). lia. Qed.

Lemma byte_of_to_N (b : byte) : byte_of_N (Byte.to_N b) = b.
Proof. unfold byte_of_N. now rewrite Byte.of_to_N. Qed.

Lemma to_N_byte_of_N (n : N) : n < 256 -> Byte.to_N (byte_of_N n) = n.
Proof.
  intros Hn. unfold byte_of_N.
  destruct (Byte.of_N n) as [b|] eqn:E.
  - now apply Byte.to_of_N.
  - apply Byte.of_N_None_iff in E. lia.
Qed.

Lemma eqb_neq (a b : byte) : a <> b -> Byte.eqb a b = false.
Proof.
  intros Hne. destruct (Byte.eqb a b) eqn:E; [|reflexivity].
  apply Byte.byte_dec_bl in E. contradiction.
Qed.

Lemma eqb_refl (a : byte) : Byte.eqb a a = true.
Proof. now apply Byte.byte_dec_lb. Qed.

(** A property of every number below a bound, decided by running through
    the numbers. *)
Lemma below_forallb (P : N -> bool) (k : nat) :
  forallb (fun i => P (N.of_nat i)) (seq 0 k) = true ->
  forall n, n < N.of_nat k -> P n = true.
Proof.
  intros H n Hn. rewrite forallb_forall in H.
  rewrite <- (N2Nat.id n). apply H. apply in_seq. lia.
Qed.

(** ** The base64 alphabet *)

Lemma dec64_enc64 (n : N) : n < 64 -> dec64 (enc64 n) = Some n.
Proof.
  intros Hn.
  pose (P := fun n => match dec64 (enc64 n) with
                      | Some m => N.eqb m n
                      | None => false
                      end).
  assert (HP : P n = true).
  { apply (below_forallb P 64); [vm_compute; reflexivity | exact Hn]. }
  unfold P in HP. destruct (dec64 (enc64 n)) as [m|]; [|discriminate].
  apply N.eqb_eq in HP. now subst.
Qed.

Lemma enc64_not_pad (n : N) : n < 64 -> Byte.eqb (enc64 n) pad = false.
Proof.
  intros Hn.
  apply (below_forallb (fun n => negb (Byte.eqb (enc64 n) pad)) 64) in Hn;
    [|vm_compute; reflexivity].
  now apply negb_true_iff in Hn.
Qed.

Lemma enc64_not_quote (n : N) : n < 64 -> Byte.eqb (enc64 n) quote = false.
Proof.
  intros Hn.
  apply (below_forallb (fun n => negb (Byte.eqb (enc64 n) quote)) 64) in Hn;
    [|vm_compute; reflexivity].
  now apply negb_true_iff in Hn.
Qed.

(** ** Sextets of a group of bytes *)

Lemma div_lt (b k m : N) : b < k * m -> b / k < m.
Proof. intros H. apply N.Div0.div_lt_upper_bound. exact H. Qed.

Lemma sextet1_lt (a : N) : a < 256 -> a / 4 < 64.
Proof. intros Ha. apply div_lt. lia. Qed.

Lemma sextet2_lt (a b : N) : b < 256 -> (a mod 4) * 16 + b / 16 < 64.
Proof.
  intros Hb. pose proof (N.mod_upper_bound a 4).
  assert (b / 16 < 16) by (apply div_lt; lia). lia.
Qed.

Lemma sextet3_lt (b c : N) : c < 256 -> (b mod 16) * 4 + c / 64 < 64.
Proof.
  intros Hc. pose proof (N.mod_upper_bound b 16).
  assert (c / 64 < 4) by (apply div_lt; lia). lia.
Qed.

Lemma sextet4_lt (c : N) : c mod 64 < 64.
Proof. apply N.mod_upper_bound. lia. Qed.

Lemma octet1 (a b : N) :
  b < 256 -> (a / 4) * 4 + ((a mod 4) * 16 + b / 16) / 16 = a.
Proof.
  intros Hb. assert (Hq : b / 16 < 16) by (apply div_lt; lia).
  rewrite <- (N.div_unique ((a mod 4) * 16 + b / 16) 16 (a mod 4) (b / 16))
    by (exact Hq || lia).
  pose proof (N.div_mod a 4). lia.
Qed.

Lemma octet2 (a b c : N) :
  b < 256 -> c < 256 ->
  (((a mod 4) * 16 + b / 16) mod 16) * 16
    + ((b mod 16) * 4 + c / 64) / 4 = b.
Proof.
  intros Hb Hc.
  assert (Hq : b / 16 < 16) by (apply div_lt; lia).
  assert (Hq' : c / 64 < 4) by (apply div_lt; lia).
  rewrite <- (N.mod_unique ((a mod 4) * 16 + b / 16) 16 (a mod 4) (b / 16))
    by (exact Hq || lia).
  rewrite <- (N.div_unique ((b mod 16) * 4 + c / 64) 4 (b mod 16) (c / 64))
    by (exact Hq' || lia).
  pose proof (N.div_mod b 16). lia.
Qed.

Lemma octet3 (b c : N) :
  c < 256 -> (((b mod 16) * 4 + c / 64) mod 4) * 64 + c mod 64 = c.
Proof.
  intros Hc. assert (Hq : c / 64 < 4) by (apply div_lt; lia).
  rewrite <- (N.mod_unique ((b mod 16) * 4 + c / 64) 4 (b mod 16) (c / 64))
    by (exact Hq || lia).
  pose proof (N.div_mod c 64). lia.
Qed.

Lemma octet1_last (a : N) : (a / 4) * 4 + ((a mod 4) * 16) / 16 = a.
Proof.
  pose proof (octet1 a 0 ltac:(lia)) as H.
  change (0 / 16) with 0 in H. now rewrite N.add_0_r in H.
Qed.

Lemma octet2_last (a b : N) :
  b < 256 ->
  (((a mod 4) * 16 + b / 16) mod 16) * 16 + ((b mod 16) * 4) / 4 = b.
Proof.
  intros Hb. pose proof (octet2 a b 0 Hb ltac:(lia)) as H.
  change (0 / 64) with 0 in H. now rewrite N.add_0_r in H.
Qed.

(** ** Base64 round trip *)

(** Lists taken three elements at a time, as the encoder takes them. *)
Lemma list_ind3 {A : Type} (P : list A -> Prop) :
  P [] ->
  (forall a, P [a]) ->
  (forall a b, P [a; b]) ->
  (forall a b c l, P l -> P (a :: b :: c :: l)) ->
  forall l, P l.
Proof.
  intros H0 H1 H2 H3. fix IH 1.
  intros [|a [|b [|c l]]]; [exact H0 | apply H1 | apply H2 |].
  apply H3, IH.
Qed.

Lemma b64_decode_quantum (c1 c2 c3 c4 : byte) (rest : list byte)
    (d1 d2 d3 d4 : N) :
  dec64 c1 = Some d1 -> dec64 c2 = Some d2 ->
  dec64 c3 = Some d3 -> dec64 c4 = Some d4 ->
  Byte.eqb c3 pad = false -> Byte.eqb c4 pad = false ->
  b64_decode (c1 :: c2 :: c3 :: c4 :: rest) =
    match b64_decode rest with
    | Some out => Some (quantum3 d1 d2 d3 d4 ++ out)
    | None => None
    end.
Proof.
  intros E1 E2 E3 E4 P3 P4.
  change (b64_decode (c1 :: c2 :: c3 :: c4 :: rest)) with
    (match dec64 c1, dec64 c2 with
     | Some d1, Some d2 =>
         if Byte.eqb c3 pad then
           if Byte.eqb c4 pad then
             match rest with [] => Some (quantum1 d1 d2) | _ :: _ => None end
           else None
         else
           match dec64 c3 with
           | None => None
           | Some d3 =>
               if Byte.eqb c4 pad then
                 match rest with
                 | [] => Some (quantum2 d1 d2 d3)
                 | _ :: _ => None
                 end
               else
                 match dec64 c4 with
                 | None => None
                 | Some d4 =>
                     match b64_decode rest with
                     | Some out => Some (quantum3 d1 d2 d3 d4 ++ out)
                     | None => None
                     end
                 end
           end
     | _, _ => None
     end).
  now rewrite E1, E2, P3, E3, P4, E4.
Qed.

Lemma b64_decode_last2 (c1 c2 c3 : byte) (d1 d2 d3 : N) :
  dec64 c1 = Some d1 -> dec64 c2 = Some d2 -> dec64 c3 = Some d3 ->
  Byte.eqb c3 pad = false ->
  b64_decode [c1; c2; c3; pad] = Some (quantum2 d1 d2 d3).
Proof.
  intros E1 E2 E3 P3. cbn [b64_decode].
  now rewrite E1, E2, P3, E3, eqb_refl.
Qed.

Lemma b64_decode_last1 (c1 c2 : byte) (d1 d2 : N) :
  dec64 c1 = Some d1 -> dec64 c2 = Some d2 ->
  b64_decode [c1; c2; pad; pad] = Some (quantum1 d1 d2).
Proof.
  intros E1 E2. cbn [b64_decode].
  now rewrite E1, E2, !eqb_refl.
Qed.

Lemma sextet2_last_lt (a : N) : (a mod 4) * 16 < 64.
Proof. pose proof (N.mod_upper_bound a 4). lia. Qed.

Lemma sextet3_last_lt (b : N) : (b mod 16) * 4 < 64.
Proof. pose proof (N.mod_upper_bound b 16). lia. Qed.

Create HintDb sextet.

#[local] Hint Resolve to_N_lt sextet1_lt sextet2_lt sextet3_lt sextet4_lt
  sextet2_last_lt sextet3_last_lt : sextet.

Lemma b64_roundtrip (src : list byte) : b64_decode (b64_encode src) = Some src.
Proof.
  induction src as [|a|a b|a b c rest IH] using list_ind3.
  - reflexivity.
  - cbn [b64_encode].
    erewrite b64_decode_last1 by (apply dec64_enc64; auto with sextet).
    unfold quantum1. now rewrite octet1_last, byte_of_to_N.
  - cbn [b64_encode].
    erewrite b64_decode_last2
      by (apply dec64_enc64 || apply enc64_not_pad; auto with sextet).
    unfold quantum2.
    now rewrite octet1, octet2_last, !byte_of_to_N by auto with sextet.
  - cbn [b64_encode].
    erewrite b64_decode_quantum
      by (apply dec64_enc64 || apply enc64_not_pad; auto with sextet).
    rewrite IH. unfold quantum3.
    now rewrite octet1, octet2, octet3, !byte_of_to_N by auto with sextet.
Qed.

(** No digit of the encoding is a double quote. *)
Lemma b64_encode_no_quote (src : list byte) :
  Forall (fun c => Byte.eqb c quote = false) (b64_encode src).
Proof.
  induction src as [|a|a b|a b c rest IH] using list_ind3; cbn [b64_encode].
  - constructor.
  - repeat constructor; apply enc64_not_quote; auto with sextet.
  - repeat constructor; apply enc64_not_quote; auto with sextet.
  - repeat (constructor; [apply enc64_not_quote; auto with sextet|]).
    exact IH.
Qed.

(** ** Decimal round trip *)

Lemma digit_to_N (d : N) : d < 10 -> Byte.to_N (digit d) = 48 + d.
Proof. intros Hd. unfold digit. apply to_N_byte_of_N. lia. Qed.

Lemma is_digit_digit (d : N) : d < 10 -> is_digit (digit d) = true.
Proof.
  intros Hd. unfold is_digit. rewrite digit_to_N by exact Hd.
  apply andb_true_intro. split; apply N.leb_le; lia.
Qed.

Lemma mod10_lt (u : N) : u mod 10 < 10.
Proof. apply N.mod_upper_bound. lia. Qed.

Lemma format_digits_app (fuel : nat) (u : N) (acc : list byte) :
  format_digits fuel u acc = format_digits fuel u [] ++ acc.
Proof.
  revert u acc. induction fuel as [|fuel IH]; intros u acc; [reflexivity|].
  cbn [format_digits]. destruct (u <? 10); [reflexivity|].
  rewrite (IH _ (_ :: acc)), (IH _ [_]), <- app_assoc. reflexivity.
Qed.

Lemma format_digits_all (fuel : nat) (u : N) (acc : list byte) :
  Forall (fun c => is_digit c = true) acc ->
  Forall (fun c => is_digit c = true) (format_digits fuel u acc).
Proof.
  revert u acc. induction fuel as [|fuel IH]; intros u acc Hacc; [exact Hacc|].
  cbn [format_digits].
  assert (Hd : Forall (fun c => is_digit c = true) (digit (u mod 10) :: acc))
    by (constructor; [apply is_digit_digit, mod10_lt | exact Hacc]).
  destruct (u <? 10); [exact Hd | apply IH, Hd].
Qed.

(** One round of [ParseUint] on the digit of [u mod 10]. *)
Lemma parse_digits_step (n u : N) (acc : list byte) :
  n * 10 + u mod 10 = u -> u <= uint64_max ->
  parse_digits n (digit (u mod 10) :: acc) = parse_digits u acc.
Proof.
  intros Hn Hmax. pose proof (mod10_lt u) as Hr.
  assert (Hc : n < cutoff) by (unfold uint64_max, cutoff in *; dlia).
  assert (Hn10 : n * 10 < 18446744073709551616)
    by (unfold cutoff in Hc; lia).
  assert (Hu : u < 18446744073709551616) by (unfold uint64_max in Hmax; lia).
  cbn [parse_digits].
  rewrite is_digit_digit, digit_to_N by exact Hr.
  replace (48 + u mod 10 - 48) with (u mod 10) by dlia.
  destruct (N.leb_spec cutoff n) as [H|_]; [lia|].
  unfold wrap64.
  rewrite (N.mod_small (n * 10)) by exact Hn10.
  rewrite Hn, (N.mod_small u) by exact Hu.
  destruct (N.ltb_spec u (n * 10)) as [H|_]; [dlia|].
  destruct (N.ltb_spec uint64_max u) as [H|_]; [lia|].
  reflexivity.
Qed.

(** Reading back what [formatBits] wrote leaves the number it wrote. *)
Lemma parse_format_digits (fuel : nat) (u : N) (acc : list byte) :
  u < 10 ^ N.of_nat fuel -> u <= uint64_max ->
  parse_digits 0 (format_digits fuel u acc) = parse_digits u acc.
Proof.
  revert u acc. induction fuel as [|fuel IH]; intros u acc Hu Hmax.
  - change (10 ^ N.of_nat 0) with 1 in Hu.
    assert (u = 0) as -> by lia. reflexivity.
  - cbn [format_digits]. destruct (N.ltb_spec u 10) as [Hlt|Hge].
    + apply parse_digits_step; [|exact Hmax].
      rewrite N.mod_small by exact Hlt. lia.
    + pose proof (N.div_mod u 10 ltac:(lia)) as Hdm.
      assert (Hq : u / 10 < 10 ^ N.of_nat fuel).
      { apply div_lt. rewrite Nat2N.inj_succ, N.pow_succ_r' in Hu. exact Hu. }
      assert (Hq' : u / 10 <= uint64_max) by (clear - Hmax Hdm; dlia).
      rewrite IH by assumption.
      apply parse_digits_step; [clear - Hdm; dlia | exact Hmax].
Qed.

Lemma digit_not_zero (q : N) : 0 < q < 10 -> Byte.eqb (digit q) x30 = false.
Proof.
  intros Hq. apply eqb_neq. intros E.
  apply (f_equal Byte.to_N) in E. rewrite digit_to_N in E by lia.
  change (Byte.to_N x30) with 48 in E. lia.
Qed.

(** The first digit written is not a zero, unless the number has one digit. *)
Lemma format_digits_head (fuel : nat) (u : N) (acc : list byte) :
  (0 < fuel)%nat -> u < 10 ^ N.of_nat fuel ->
  exists c tl, format_digits fuel u acc = c :: tl /\
    (u < 10 -> c = digit u /\ tl = acc) /\
    (10 <= u -> Byte.eqb c x30 = false).
Proof.
  revert u acc. induction fuel as [|fuel IH]; intros u acc Hf Hu; [lia|].
  cbn [format_digits]. destruct (N.ltb_spec u 10) as [Hlt|Hge].
  - exists (digit (u mod 10)), acc. rewrite N.mod_small by exact Hlt.
    repeat split; lia.
  - pose proof (N.div_mod u 10 ltac:(lia)) as Hdm.
    pose proof (mod10_lt u) as Hr.
    assert (Hq : u / 10 < 10 ^ N.of_nat fuel).
    { apply div_lt. rewrite Nat2N.inj_succ, N.pow_succ_r' in Hu. exact Hu. }
    assert (Hpos : 0 < u / 10) by (clear - Hge Hdm Hr; dlia).
    assert (Hf' : (0 < fuel)%nat).
    { destruct fuel; [|lia]. change (10 ^ N.of_nat 0) with 1 in Hq. lia. }
    destruct (IH (u / 10) (digit (u mod 10) :: acc) Hf' Hq)
      as (c & tl & E & Hsmall & Hbig).
    exists c, tl. split; [exact E|]. split; [lia|]. intros _.
    destruct (N.ltb_spec (u / 10) 10) as [Hlt'|Hge'].
    + destruct (Hsmall Hlt') as [-> _]. apply digit_not_zero. lia.
    + apply Hbig, Hge'.
Qed.

Lemma FormatUint_literal (u : N) :
  u <= uint64_max -> json_uint_literal (FormatUint u) = true.
Proof.
  intros Hmax.
  assert (Hu : u < 10 ^ N.of_nat 20)
    by (unfold uint64_max in Hmax; change (10 ^ N.of_nat 20) with
          100000000000000000000; lia).
  assert (Hall : forallb is_digit (FormatUint u) = true).
  { apply forallb_forall. intros c Hc.
    pose proof (format_digits_all 20 u [] ltac:(constructor)) as H.
    rewrite Forall_forall in H. apply H. now apply list_elem_of_In. }
  destruct (format_digits_head 20 u [] ltac:(lia) Hu)
    as (c & tl & E & Hsmall & Hbig).
  unfold json_uint_literal. rewrite Hall, andb_true_r.
  fold (FormatUint u) in E. rewrite E in Hall |- *.
  cbn [forallb] in Hall. apply andb_prop in Hall as [Hc _].
  destruct tl as [|c' tl]; [exact Hc|]. rewrite Hc. cbn [andb].
  destruct (N.ltb_spec u 10) as [Hlt|Hge].
  - now destruct (Hsmall Hlt).
  - now rewrite Hbig.
Qed.

Lemma ParseUint_FormatUint (u : N) :
  u <= uint64_max -> ParseUint (FormatUint u) = Some u.
Proof.
  intros Hmax.
  assert (Hu : u < 10 ^ N.of_nat 20)
    by (unfold uint64_max in Hmax; change (10 ^ N.of_nat 20) with
          100000000000000000000; lia).
  destruct (format_digits_head 20 u [] ltac:(lia) Hu) as (c & tl & E & _).
  unfold ParseUint. fold (FormatUint u) in E. rewrite E, <- E.
  unfold FormatUint. now rewrite parse_format_digits.
Qed.

(** ** Splitting what was concatenated *)

Lemma strip_prefix_app (pre s : list byte) :
  strip_prefix pre (pre ++ s) = Some s.
Proof.
  induction pre as [|p pre IH]; [now destruct s|].
  cbn [app strip_prefix]. now rewrite eqb_refl.
Qed.

Lemma span_app (p : byte -> bool) (a : list byte) (c : byte) (b : list byte) :
  Forall (fun x => p x = true) a -> p c = false ->
  span p (a ++ c :: b) = (a, c :: b).
Proof.
  intros Ha Hc. induction Ha as [|x a Hx _ IH]; cbn [app span].
  - now rewrite Hc.
  - now rewrite Hx, IH.
Qed.

(** ** The envelope *)

Lemma decode_encode_bytes (v : bytes) (c : byte) (rest : list byte) :
  decode_bytes (encode_bytes v ++ c :: rest) = Some (v, c :: rest).
Proof.
  destruct v as [b|]; unfold decode_bytes, encode_bytes.
  - change (strip_prefix json_null
              ((quote :: b64_encode b ++ [quote]) ++ c :: rest))
      with (@None (list byte)).
    cbn [app]. rewrite eqb_refl, <- app_assoc. cbn [app].
    rewrite span_app.
    + now rewrite b64_roundtrip.
    + eapply Forall_impl; [apply b64_encode_no_quote|].
      intros x Hx. cbn beta in Hx |- *. now rewrite Hx.
    + now rewrite eqb_refl.
  - now rewrite strip_prefix_app.
Qed.

Lemma unmarshal_marshal (v : versionedValue) :
  is_uint64 (Version v) -> unmarshal (marshal v) = Some v.
Proof.
  intros Hv. destruct v as [val ver]. unfold is_uint64 in Hv. cbn in Hv.
  unfold unmarshal, marshal. cbn [Value Version].
  rewrite strip_prefix_app.
  change (key_Version ++ FormatUint ver ++ [rbrace])
    with (comma :: tl key_Version ++ FormatUint ver ++ [rbrace]).
  rewrite decode_encode_bytes.
  change (comma :: tl key_Version ++ FormatUint ver ++ [rbrace])
    with (key_Version ++ FormatUint ver ++ [rbrace]).
  rewrite strip_prefix_app, span_app.
  - rewrite FormatUint_literal, ParseUint_FormatUint by exact Hv.
    now rewrite eqb_refl.
  - apply format_digits_all. constructor.
  - reflexivity.
Qed.

End CodecFacts.

(* ===================================================================== *)
(** * Properties of the engine commands *)
(* ===================================================================== *)

Ltac unfold_M :=
  unfold mbind, mret, M_bind, M_ret, bind, ret, fail, finish, attempt in *.

(** What the client sends for a time to live: nothing positive under a
    millisecond, and at a millisecond or more a positive time that does not
    exceed it and falls short of it by less than a millisecond. *)
Lemma ttl_sent_small (expiration : Z) :
  (expiration < Engine.time_Millisecond)%Z ->
  (Engine.ttl_sent expiration <= 0)%Z.
Proof.
  unfold Engine.ttl_sent, Engine.usePrecise, Engine.formatMs,
    Engine.time_Millisecond, Engine.time_Second.
  intros H.
  replace (expiration <? 1000000000)%Z with true
    by (symmetry; apply Z.ltb_lt; lia).
  cbn [orb].
  destruct (Z.le_gt_cases 0 expiration) as [Hp|Hn].
  - rewrite Z.quot_small by lia. lia.
  - replace expiration with (- - expiration)%Z by lia.
    rewrite Z.quot_opp_l by lia.
    pose proof (Z.quot_pos (- expiration) 1000000 ltac:(lia) ltac:(lia)).
    lia.
Qed.

Lemma ttl_sent_bounds (expiration : Z) :
  (Engine.time_Millisecond <= expiration)%Z ->
  (0 < Engine.ttl_sent expiration <= expiration)%Z
  /\ (expiration - Engine.time_Millisecond < Engine.ttl_sent expiration)%Z.
Proof.
  unfold Engine.ttl_sent, Engine.usePrecise, Engine.formatMs,
    Engine.formatSec, Engine.time_Millisecond, Engine.time_Second.
  intros H.
  destruct (expiration <? 1000000000)%Z eqn:Hs; cbn [orb].
  - rewrite Z.quot_div_nonneg by lia.
    pose proof (Z.div_mod expiration 1000000 ltac:(lia)).
    pose proof (Z.mod_pos_bound expiration 1000000 ltac:(lia)).
    set (q := (expiration / 1000000)%Z) in *.
    set (m := (expiration mod 1000000)%Z) in *.
    clearbody q m. lia.
  - apply Z.ltb_ge in Hs.
    destruct (Z.rem expiration 1000000000 =? 0)%Z eqn:Hr; cbn [negb].
    + apply Z.eqb_eq in Hr.
      pose proof (Z.quot_rem' expiration 1000000000) as Hqr.
      rewrite Hr in Hqr.
      set (q := (expiration ÷ 1000000000)%Z) in *. clearbody q. lia.
    + rewrite Z.quot_div_nonneg by lia.
      pose proof (Z.div_mod expiration 1000000 ltac:(lia)).
      pose proof (Z.mod_pos_bound expiration 1000000 ltac:(lia)).
      set (q := (expiration / 1000000)%Z) in *.
      set (m := (expiration mod 1000000)%Z) in *.
      clearbody q m. lia.
Qed.

Lemma SetNX_accepts_iff (expiration : Z) :
  Engine.SetNX_accepts expiration = true <-> ttl_accepted expiration.
Proof.
  unfold Engine.SetNX_accepts, ttl_accepted.
  rewrite orb_true_iff, Z.eqb_eq, Z.ltb_lt. split.
  - intros [H|H]; [now left|right].
    destruct (Z.le_gt_cases Engine.time_Millisecond expiration) as [|Hlt];
      [assumption|].
    apply ttl_sent_small in Hlt. lia.
  - intros [H|H]; [now left|right]. now apply ttl_sent_bounds.
Qed.

Lemma Set_accepts_iff (expiration : Z) :
  Engine.Set_accepts expiration = true <-> ttl_accepted_by_set expiration.
Proof.
  unfold Engine.Set_accepts, ttl_accepted_by_set.
  rewrite orb_true_iff, negb_true_iff, Z.ltb_ge, Z.ltb_lt. split.
  - intros [H|H]; [now left|right].
    destruct (Z.le_gt_cases Engine.time_Millisecond expiration) as [|Hlt];
      [assumption|].
    apply ttl_sent_small in Hlt. lia.
  - intros [H|H]; [now left|right]. now apply ttl_sent_bounds.
Qed.

Lemma command_quiet {A : Type} (body : World -> result A * World) (w : World) :
  quiet w -> Engine.command body w = body w.
Proof. unfold quiet, Engine.command. now intros ->. Qed.

Lemma Get_quiet (k : string) (w : World) :
  quiet w ->
  Engine.Get k w =
    match db w !! k with
    | Some e => (Ok (payload e), w)
    | None => (Err RedisNil, w)
    end.
Proof. intros Hq. unfold Engine.Get. now rewrite command_quiet. Qed.

Lemma Del_one_quiet (k : string) (w : World) :
  quiet w ->
  exists n, Engine.Del [k] w =
    (Ok n, mkWorld (delete k (db w)) (now w) (faults w)).
Proof.
  intros Hq. unfold Engine.Del. rewrite command_quiet by exact Hq.
  eexists. reflexivity.
Qed.

Lemma SetNX_quiet (k v : string) (exp : Z) (w : World) :
  quiet w -> Engine.SetNX_accepts exp = true -> db w !! k = None ->
  Engine.SetNX k v exp w = (Ok true, Engine.store k v exp w).
Proof.
  intros Hq Ha Hk. unfold Engine.SetNX. rewrite command_quiet by exact Hq.
  unfold Engine.SetNX_accepts in Ha. now rewrite Ha, Hk.
Qed.

(** An expiration the engine rejects: [SetNX] answers the engine's error and
    writes nothing. *)
Lemma SetNX_rejected (k v : string) (exp : Z) (w : World) :
  quiet w -> Engine.SetNX_accepts exp = false ->
  Engine.SetNX k v exp w = (Err Engine.invalid_expire_time, w).
Proof.
  intros Hq Ha. unfold Engine.SetNX. rewrite command_quiet by exact Hq.
  unfold Engine.SetNX_accepts in Ha. now rewrite Ha.
Qed.

(** A command either meets a fault, or runs its body on the same keyspace
    and clock. *)
Lemma command_inv {A : Type} (body : World -> result A * World)
    (w w' : World) (r : result A) :
  Engine.command body w = (r, w') ->
  (r = Err Engine.transport_error /\ db w' = db w /\ now w' = now w)
  \/ (exists w0, db w0 = db w /\ now w0 = now w /\ body w0 = (r, w')).
Proof.
  unfold Engine.command. destruct (faults w) as [|[] fs]; intros H.
  - right. now exists w.
  - left. now injection H as <- <-.
  - right. now eexists (mkWorld (db w) (now w) fs).
Qed.

Lemma Get_inv (k : string) (w w' : World) (r : result string) :
  Engine.Get k w = (r, w') ->
  db w' = db w /\ now w' = now w /\
  match r with
  | Ok s => exists e, db w !! k = Some e /\ s = payload e
  | Err e => e = RedisNil /\ db w !! k = None \/ e = Engine.transport_error
  | Panic | OutOfFuel => False
  end.
Proof.
  intros H. apply command_inv in H as [(-> & Hdb & Hnow)|(w0 & Hdb & Hnow & H)].
  - repeat split; [exact Hdb | exact Hnow | now right].
  - rewrite <- Hdb, <- Hnow.
    destruct (db w0 !! k) as [e|] eqn:E; injection H as <- <-.
    + repeat split. now exists e.
    + repeat split. now left.
Qed.

Lemma Del_one_inv (k : string) (w w' : World) (n : N) :
  Engine.Del [k] w = (Ok n, w') ->
  db w' = delete k (db w) /\ now w' = now w.
Proof.
  intros H. apply command_inv in H as [(? & _)|(w0 & Hdb & Hnow & H)];
    [discriminate|].
  injection H as _ <-. cbn [db now foldr]. now rewrite Hdb, Hnow.
Qed.

Lemma SetNX_inv (k v : string) (exp : Z) (w w' : World) (b : bool) :
  Engine.SetNX k v exp w = (Ok b, w') ->
  db w !! k = None ->
  db w' = <[k := mkEntry v (Engine.deadline w exp)]> (db w)
  /\ now w' = now w.
Proof.
  intros H Hk. apply command_inv in H as [(? & _)|(w0 & Hdb & Hnow & H)];
    [discriminate|].
  rewrite <- Hdb in Hk. rewrite Hk in H.
  destruct ((exp =? 0)%Z || (0 <? Engine.ttl_sent exp)%Z);
    [|discriminate].
  injection H as _ <-.
  unfold Engine.store, Engine.deadline. cbn [db now].
  now rewrite Hdb, Hnow.
Qed.

Lemma MGet_inv (ks : list string) (w w' : World)
    (replies : list (option string)) :
  Engine.MGet ks w = (Ok replies, w') ->
  db w' = db w /\ replies = map (fun k => payload <$> db w !! k) ks.
Proof.
  intros H. apply command_inv in H as [(? & _)|(w0 & Hdb & _ & H)];
    [discriminate|].
  destruct ks as [|k ks]; [discriminate|]. injection H as <- <-.
  now rewrite Hdb.
Qed.


(* ===================================================================== *)
(** * Properties of the adapter *)
(* ===================================================================== *)

(** The time stamp is a [uint64], and in fact below one second. *)
Lemma stamp_bound (t : Z) : uint64_of_int (Nanosecond t) < 1000000000.
Proof.
  unfold uint64_of_int, Nanosecond, Second.
  pose proof (Z.mod_pos_bound t 1000000000 ltac:(lia)) as H.
  rewrite Z.mod_small by lia. lia.
Qed.

Lemma stamp_uint64 (t : Z) : Codec.is_uint64 (uint64_of_int (Nanosecond t)).
Proof.
  pose proof (stamp_bound t). unfold Codec.is_uint64, Codec.uint64_max. lia.
Qed.

Lemma unmarshal_sealed (value : Codec.bytes) (w : World) :
  Codec.unmarshal (list_byte_of_string (sealed value w)) =
    Some (Codec.mkVersionedValue value (uint64_of_int (Nanosecond (now w)))).
Proof.
  unfold sealed. rewrite list_byte_of_string_of_list_byte.
  apply CodecFacts.unmarshal_marshal, stamp_uint64.
Qed.

(** Under a sound key, the stored version is there exactly when the key is. *)
Lemma stored_version_None (w : World) (k : string) :
  sound_at w k -> (stored_version w k = None <-> db w !! k = None).
Proof.
  unfold sound_at, stored_version, envelope. intros Hs.
  destruct (db w !! k) as [e|]; cbn in *; [|tauto].
  destruct (Codec.unmarshal _); [|congruence].
  split; discriminate.
Qed.

(** The decision table, case by case. *)
Lemma key_modified_iff (previous : option KVPair) (w : World) (k : string) :
  sound_at w k ->
  key_modified previous (stored_version w k) = true <->
    (previous = None /\ is_Some (db w !! k))
    \/ (is_Some previous /\ db w !! k = None)
    \/ (exists p v, previous = Some p /\ stored_version w k = Some v
                    /\ LastIndex p <> v).
Proof.
  intros Hs. pose proof (stored_version_None w k Hs) as Hnone.
  destruct previous as [p|], (stored_version w k) as [v|] eqn:Hv;
    cbn [key_modified].
  - rewrite negb_true_iff, N.eqb_neq. split.
    + intros Hne. right. right. now exists p, v.
    + intros [[? _]|[[_ Habs]|(p' & v' & [= <-] & [= <-] & Hne)]];
        [discriminate | | exact Hne].
      apply Hnone in Habs. discriminate.
  - split; [|reflexivity]. intros _. right. left.
    split; [eauto | now apply Hnone].
  - split; [|reflexivity]. intros _. left. split; [reflexivity|].
    destruct (db w !! k); [eauto|].
    pose proof (proj2 Hnone eq_refl). discriminate.
  - split; [discriminate|].
    intros [[_ [e He]]|[[[? ?] _]|(p' & v' & ? & ? & _)]]; try discriminate.
    rewrite (proj1 Hnone eq_refl) in He. discriminate.
Qed.

Section AdapterFacts.

Variable normalize : string -> string.

(** [Get] when the command gets through. *)
Lemma Get_quiet_eq (key : string) (w : World) :
  quiet w ->
  Get normalize key w =
    match db w !! normalize key with
    | None => (Err ErrKeyNotFound, w)
    | Some e =>
        match Codec.unmarshal (list_byte_of_string (payload e)) with
        | None => (Panic, w)
        | Some vv =>
            (Ok (mkKVPair key (Codec.Value vv) (Codec.Version vv)), w)
        end
    end.
Proof.
  intros Hq. unfold Get. unfold_M. rewrite Get_quiet by exact Hq.
  destruct (db w !! normalize key) as [e|]; [|reflexivity].
  now destruct (Codec.unmarshal _).
Qed.

(** A successful [Put] has stored the sealed value under the flat key. *)
Lemma Put_ok (key : string) (value : Codec.bytes)
    (options : option WriteOptions) (w w1 : World) :
  Put normalize key value options w = (Ok tt, w1) ->
  db w1 = <[normalize key :=
              mkEntry (sealed value w)
                      (Engine.deadline w (expiration_of options))]> (db w)
  /\ now w1 = now w.
Proof.
  unfold Put, timeBasedVersion, Engine.Set_, Engine.command. unfold_M.
  destruct (faults w) as [|[] fs]; try discriminate;
    destruct (0 <? expiration_of options)%Z eqn:Hpos;
    try destruct (0 <? Engine.ttl_sent (expiration_of options))%Z;
    try discriminate; intros [= <-]; split; try reflexivity;
    unfold Engine.store, Engine.deadline; cbn [db now]; now rewrite Hpos.
Qed.

Lemma Delete_quiet (key : string) (w : World) :
  quiet w ->
  Delete normalize key w =
    (Ok tt, mkWorld (delete (normalize key) (db w)) (now w) (faults w)).
Proof.
  intros Hq. unfold Delete. unfold_M.
  destruct (Del_one_quiet (normalize key) w Hq) as [n ->]. reflexivity.
Qed.

(** What a finished [Get] says about the world. *)
Lemma Get_result (key : string) (w w' : World) (r : result KVPair) :
  Get normalize key w = (r, w') ->
  db w' = db w /\ now w' = now w /\
  match r with
  | Ok p =>
      exists e vv, db w !! normalize key = Some e
        /\ Codec.unmarshal (list_byte_of_string (payload e)) = Some vv
        /\ p = mkKVPair key (Codec.Value vv) (Codec.Version vv)
  | Err e => e = ErrKeyNotFound -> db w !! normalize key = None
  | Panic | OutOfFuel => True
  end.
Proof.
  unfold Get. unfold_M.
  destruct (Engine.Get (normalize key) w) as [r0 w0] eqn:HG.
  apply Get_inv in HG as (Hdb & Hnow & Hr).
  destruct r0 as [s|e| |]; try contradiction.
  - destruct Hr as (e & He & ->).
    destruct (Codec.unmarshal _) as [vv|] eqn:Hvv; intros [= <- <-];
      repeat split; try assumption.
    now exists e, vv.
  - destruct Hr as [[-> Hk]| ->]; cbn [error_eqb]; intros [= <- <-];
      repeat split; try assumption; [now intros _ | discriminate].
Qed.

Lemma Delete_result (key : string) (w w' : World) :
  Delete normalize key w = (Ok tt, w') ->
  db w' = delete (normalize key) (db w) /\ now w' = now w.
Proof.
  unfold Delete. unfold_M.
  destruct (Engine.Del [normalize key] w) as [[n|e| |] w0] eqn:HD;
    intros [= <-].
  now apply Del_one_inv in HD.
Qed.

(** The final write, on a world where the key is absent. *)
Lemma write_new_absent (key : string) (value : Codec.bytes)
    (options : option WriteOptions) (w w' : World)
    (r : result (bool * option KVPair * option error)) :
  db w !! normalize key = None ->
  write_new normalize key value options w = (r, w') ->
  forall pair, r = Ok (true, Some pair, None) ->
    pair = mkKVPair (normalize key) value
                    (uint64_of_int (Nanosecond (now w)))
    /\ db w' !! normalize key =
         Some (mkEntry (sealed value w)
                       (Engine.deadline w (expiration_of options))).
Proof.
  intros Hk. unfold write_new, timeBasedVersion. unfold_M.
  destruct (Engine.SetNX _ _ _ w) as [[b|e| |] w3] eqn:HS;
    intros [= <- <-] pair [= <-].
  apply SetNX_inv in HS as [Hdb3 _]; [|exact Hk].
  split; [reflexivity|]. now rewrite Hdb3, lookup_insert_eq.
Qed.

Lemma write_new_quiet (key : string) (value : Codec.bytes)
    (options : option WriteOptions) (w : World) :
  quiet w -> Engine.SetNX_accepts (expiration_of options) = true ->
  db w !! normalize key = None ->
  write_new normalize key value options w =
    (Ok (true,
         Some (mkKVPair (normalize key) value
                        (uint64_of_int (Nanosecond (now w)))),
         None),
     Engine.store (normalize key) (sealed value w)
                  (expiration_of options) w).
Proof.
  intros Hq Ha Hk. unfold write_new, timeBasedVersion. unfold_M.
  rewrite SetNX_quiet by assumption. reflexivity.
Qed.

(** The final write with an expiration the engine rejects. *)
Lemma write_new_rejected (key : string) (value : Codec.bytes)
    (options : option WriteOptions) (w : World) :
  quiet w -> Engine.SetNX_accepts (expiration_of options) = false ->
  write_new normalize key value options w =
    (Ok (false, None, Some Engine.invalid_expire_time), w).
Proof.
  intros Hq Ha. unfold write_new, timeBasedVersion. unfold_M.
  rewrite SetNX_rejected by assumption. reflexivity.
Qed.

(** The compare-and-swap write, when every command gets through: a
    conflict changes nothing; otherwise the key is deleted if [previous] is
    non-nil, and the conditional write stores the sealed value, or is turned
    down by the engine for its expiration, after the delete. *)
Lemma AtomicPut_quiet (key : string) (value : Codec.bytes)
    (previous : option KVPair) (options : option WriteOptions) (w : World) :
  quiet w -> sound_at w (normalize key) ->
  AtomicPut normalize key value previous options w =
    if key_modified previous (stored_version w (normalize key))
    then (Ok (false, None, Some ErrKeyModified), w)
    else if Engine.SetNX_accepts (expiration_of options)
    then
      (Ok (true,
           Some (mkKVPair (normalize key) value
                          (uint64_of_int (Nanosecond (now w)))),
           None),
       Engine.store (normalize key) (sealed value w)
                    (expiration_of options) w)
    else
      (Ok (false, None, Some Engine.invalid_expire_time),
       match previous with
       | Some _ => mkWorld (delete (normalize key) (db w)) (now w) (faults w)
       | None => w
       end).
Proof.
  intros Hq Hs. unfold AtomicPut.
  unfold mbind at 1. unfold M_bind, bind at 1. unfold attempt at 1.
  rewrite Get_quiet_eq by exact Hq.
  unfold sound_at, stored_version, envelope in *.
  destruct (db w !! normalize key) as [e|] eqn:Hdb;
    cbn [fmap option_fmap option_map] in *.
  - destruct (Codec.unmarshal _) as [vv|]; [|congruence].
    cbn [other_than]. destruct previous as [p|]; [|reflexivity].
    cbn [is_nil andb key_modified LastIndex].
    rewrite (N.eqb_sym (LastIndex p)).
    destruct (Codec.Version vv =? LastIndex p); cbn [negb]; [|reflexivity].
    unfold_M. rewrite Delete_quiet by exact Hq.
    destruct (Engine.SetNX_accepts (expiration_of options)) eqn:Ha.
    + rewrite write_new_quiet
        by (exact Hq || exact Ha || apply lookup_delete_eq).
      unfold Engine.store, Engine.deadline, sealed. cbn [db now faults].
      rewrite insert_delete_eq. reflexivity.
    + rewrite write_new_rejected by (exact Hq || exact Ha). reflexivity.
  - cbn [other_than error_eqb negb]. destruct previous as [p|]; [reflexivity|].
    cbn [is_nil andb negb key_modified]. unfold_M.
    destruct (Engine.SetNX_accepts (expiration_of options)) eqn:Ha.
    + now rewrite write_new_quiet by assumption.
    + now rewrite write_new_rejected by assumption.
Qed.

(** The compare-and-swap delete, when every command gets through. *)
Lemma AtomicDelete_quiet (key : string) (previous : option KVPair)
    (w : World) :
  quiet w -> sound_at w (normalize key) ->
  AtomicDelete normalize key previous w =
    if key_modified previous (stored_version w (normalize key))
    then (Ok (false, Some ErrKeyModified), w)
    else
      (Ok (true, None),
       mkWorld (delete (normalize key) (db w)) (now w) (faults w)).
Proof.
  intros Hq Hs. unfold AtomicDelete.
  unfold mbind at 1. unfold M_bind, bind at 1. unfold attempt at 1.
  rewrite Get_quiet_eq by exact Hq.
  unfold sound_at, stored_version, envelope in *.
  destruct (db w !! normalize key) as [e|] eqn:Hdb;
    cbn [fmap option_fmap option_map] in *.
  - destruct (Codec.unmarshal _) as [vv|]; [|congruence].
    cbn [other_than]. destruct previous as [p|]; [|reflexivity].
    cbn [is_nil andb key_modified LastIndex].
    rewrite (N.eqb_sym (LastIndex p)).
    destruct (Codec.Version vv =? LastIndex p); cbn [negb]; [|reflexivity].
    unfold_M. now rewrite Delete_quiet by exact Hq.
  - cbn [other_than error_eqb negb]. destruct previous as [p|]; [reflexivity|].
    cbn [is_nil andb negb key_modified]. unfold_M.
    now rewrite Delete_quiet by exact Hq.
Qed.

(** A successful compare-and-swap write, whatever the fault schedule: the
    pair is keyed by the flat key and stamped by the clock, and the sealed
    value is what the engine now holds. *)
Lemma AtomicPut_success (key : string) (value : Codec.bytes)
    (previous : option KVPair) (options : option WriteOptions)
    (w w' : World) (pair : KVPair) :
  AtomicPut normalize key value previous options w
    = (Ok (true, Some pair, None), w') ->
  pair = mkKVPair (normalize key) value (uint64_of_int (Nanosecond (now w)))
  /\ db w' !! normalize key =
       Some (mkEntry (sealed value w)
                     (Engine.deadline w (expiration_of options))).
Proof.
  unfold AtomicPut.
  unfold mbind at 1. unfold M_bind, bind at 1. unfold attempt at 1.
  destruct (Get normalize key w) as [r1 w1] eqn:HG.
  apply Get_result in HG as (Hdb1 & Hnow1 & Hr1).
  assert (Hwrite : forall w2 : World,
    db w2 !! normalize key = None -> now w2 = now w ->
    write_new normalize key value options w2
      = (Ok (true, Some pair, None), w') ->
    pair = mkKVPair (normalize key) value (uint64_of_int (Nanosecond (now w)))
    /\ db w' !! normalize key =
         Some (mkEntry (sealed value w)
                       (Engine.deadline w (expiration_of options)))).
  { intros w2 Hk Hnow2 H.
    destruct (write_new_absent key value options w2 w' _ Hk H pair eq_refl)
      as [-> Hdb].
    unfold sealed, Engine.deadline in *. rewrite Hnow2 in *. now split. }
  destruct r1 as [p|e| |]; try discriminate.
  - (* the key exists *)
    cbn [other_than].
    destruct previous as [prev|]; [|discriminate].
    cbn [is_nil andb].
    unfold mbind at 1. unfold M_bind, bind at 1.
    destruct (negb (LastIndex p =? LastIndex prev)); [discriminate|].
    unfold mbind at 1. unfold M_bind, bind at 1. unfold attempt at 1.
    destruct (Delete normalize key w1) as [[[]|e| |] w2] eqn:HD;
      try discriminate.
    apply Delete_result in HD as [Hdb2 Hnow2].
    unfold ret at 1.
    apply Hwrite.
    + rewrite Hdb2. apply lookup_delete_eq.
    + congruence.
  - (* the read failed *)
    cbn [other_than].
    destruct (error_eqb e ErrKeyNotFound) eqn:Ee; cbn [negb];
      [|discriminate].
    assert (e = ErrKeyNotFound) as ->
      by (destruct e; try discriminate; reflexivity).
    destruct previous as [prev|]; [discriminate|].
    cbn [is_nil andb negb].
    unfold mbind at 1. unfold M_bind, bind at 1. unfold ret at 1.
    apply Hwrite; [|exact Hnow1].
    rewrite Hdb1. now apply Hr1.
Qed.

(** A create that succeeded found the key absent. *)
Lemma AtomicPut_create_absent (key : string) (value : Codec.bytes)
    (options : option WriteOptions) (w w' : World) (pair : KVPair) :
  AtomicPut normalize key value None options w
    = (Ok (true, Some pair, None), w') ->
  db w !! normalize key = None.
Proof.
  unfold AtomicPut.
  unfold mbind at 1. unfold M_bind, bind at 1. unfold attempt at 1.
  destruct (Get normalize key w) as [r1 w1] eqn:HG.
  apply Get_result in HG as (_ & _ & Hr1).
  destruct r1 as [p|e| |]; try discriminate. cbn [other_than].
  destruct (error_eqb e ErrKeyNotFound) eqn:Ee; cbn [negb]; [|discriminate].
  intros _. apply Hr1. destruct e; try discriminate; reflexivity.
Qed.

End AdapterFacts.

(* ===================================================================== *)
(** * The invariant: the engine holds envelopes only *)
(* ===================================================================== *)

Lemma sound_iff (w : World) :
  sound w <->
  forall k e, db w !! k = Some e ->
    is_Some (Codec.unmarshal (list_byte_of_string (payload e))).
Proof.
  unfold sound, sound_at, envelope. split.
  - intros H k e He. specialize (H k). rewrite He in H. cbn in H.
    destruct (Codec.unmarshal _); [eauto | congruence].
  - intros H k. destruct (db w !! k) as [e|] eqn:He; cbn; [|discriminate].
    destruct (H k e He) as [vv ->]. discriminate.
Qed.

Lemma sound_same_db (w w' : World) : db w' = db w -> sound w -> sound w'.
Proof. rewrite !sound_iff. now intros ->. Qed.

Lemma sound_subset (w w' : World) :
  (forall k e, db w' !! k = Some e -> db w !! k = Some e) ->
  sound w -> sound w'.
Proof. rewrite !sound_iff. eauto. Qed.

Lemma sound_store (k v : string) (exp : Z) (w : World) :
  is_Some (Codec.unmarshal (list_byte_of_string v)) ->
  sound w -> sound (Engine.store k v exp w).
Proof.
  rewrite !sound_iff. intros Hv H k' e. unfold Engine.store. cbn [db].
  rewrite lookup_insert_Some. intros [[_ <-]|[_ He]]; [exact Hv | eauto].
Qed.

Lemma lookup_foldr_delete (ks : list string) (m : gmap string entry)
    (k : string) (e : entry) :
  foldr delete m ks !! k = Some e -> m !! k = Some e.
Proof.
  induction ks as [|k0 ks IH]; cbn [foldr]; [exact id|].
  rewrite lookup_delete_Some. intros [_ H]. now apply IH.
Qed.

(** ** Calls that keep the invariant *)

Lemma preserves_ret {A : Type} (a : A) : preserves (ret a).
Proof. intros w r w' Hs [= _ <-]. exact Hs. Qed.

Lemma preserves_fail {A : Type} (e : error) : preserves (@fail A e).
Proof. intros w r w' Hs [= _ <-]. exact Hs. Qed.

Lemma preserves_finish {A : Type} (r : result A) : preserves (finish r).
Proof. intros w r' w' Hs [= _ <-]. exact Hs. Qed.

Lemma preserves_bind {A B : Type} (c : M A) (k : A -> M B) :
  preserves c -> (forall a, preserves (k a)) -> preserves (bind c k).
Proof.
  intros Hc Hk w r w' Hs. unfold bind.
  destruct (c w) as [[a|e| |] w1] eqn:E; specialize (Hc _ _ _ Hs E).
  - now apply Hk.
  - now intros [= _ <-].
  - now intros [= _ <-].
  - now intros [= _ <-].
Qed.

(** The same, knowing something of the value the first call returns. *)
Lemma preserves_bind_with {A B : Type} (P : A -> Prop) (c : M A)
    (k : A -> M B) :
  preserves c ->
  (forall w a w', c w = (Ok a, w') -> P a) ->
  (forall a, P a -> preserves (k a)) ->
  preserves (bind c k).
Proof.
  intros Hc HP Hk w r w' Hs. unfold bind.
  destruct (c w) as [[a|e| |] w1] eqn:E; specialize (Hc _ _ _ Hs E).
  - apply Hk; [|exact Hc]. exact (HP _ _ _ E).
  - now intros [= _ <-].
  - now intros [= _ <-].
  - now intros [= _ <-].
Qed.

Lemma preserves_attempt {A : Type} (c : M A) :
  preserves c -> preserves (attempt c).
Proof.
  intros Hc w r w' Hs. unfold attempt.
  destruct (c w) as [[a|e| |] w1] eqn:E; specialize (Hc _ _ _ Hs E);
    now intros [= _ <-].
Qed.

Lemma preserves_command {A : Type} (body : World -> result A * World) :
  (forall w r w', sound w -> body w = (r, w') -> sound w') ->
  preserves (Engine.command body).
Proof.
  intros Hb w r w' Hs H.
  apply command_inv in H as [(_ & Hdb & _)|(w0 & Hdb & _ & H)].
  - now apply (sound_same_db w).
  - apply (Hb w0 r w'); [|exact H]. now apply (sound_same_db w).
Qed.

Lemma preserves_Get (k : string) : preserves (Engine.Get k).
Proof.
  apply preserves_command. intros w r w' Hs.
  now destruct (db w !! k); intros [= _ <-].
Qed.

Lemma preserves_Exists (k : string) : preserves (Engine.Exists k).
Proof. apply preserves_command. now intros w r w' Hs [= _ <-]. Qed.

Lemma preserves_MGet (ks : list string) : preserves (Engine.MGet ks).
Proof.
  apply preserves_command. intros w r w' Hs.
  now destruct ks; intros [= _ <-].
Qed.

Lemma preserves_Scan (c : Z) (pat : string) (n : Z) :
  preserves (Engine.Scan c pat n).
Proof.
  apply preserves_command. intros w r w' Hs.
  now destruct (n <=? 0)%Z; intros [= _ <-].
Qed.

Lemma preserves_Del (ks : list string) : preserves (Engine.Del ks).
Proof.
  apply preserves_command. intros w r w' Hs.
  destruct ks as [|k ks]; intros [= _ <-]; [exact Hs|].
  apply (sound_subset w); [|exact Hs].
  intros k' e. cbn [db]. apply (lookup_foldr_delete (k :: ks)).
Qed.

Lemma preserves_Set (k v : string) (exp : Z) :
  is_Some (Codec.unmarshal (list_byte_of_string v)) ->
  preserves (Engine.Set_ k v exp).
Proof.
  intros Hv. apply preserves_command. intros w r w' Hs.
  destruct (0 <? exp)%Z; [destruct (0 <? Engine.ttl_sent exp)%Z|];
    intros [= _ <-]; try exact Hs; now apply sound_store.
Qed.

Lemma preserves_SetNX (k v : string) (exp : Z) :
  is_Some (Codec.unmarshal (list_byte_of_string v)) ->
  preserves (Engine.SetNX k v exp).
Proof.
  intros Hv. apply preserves_command. intros w r w' Hs.
  destruct ((exp =? 0)%Z || (0 <? Engine.ttl_sent exp)%Z);
    [|now intros [= _ <-]].
  destruct (db w !! k); intros [= _ <-]; [exact Hs|].
  now apply sound_store.
Qed.

Lemma preserves_timeBasedVersion : preserves timeBasedVersion.
Proof. intros w r w' Hs [= _ <-]. exact Hs. Qed.

Lemma timeBasedVersion_uint64 (w : World) (version : N) (w' : World) :
  timeBasedVersion w = (Ok version, w') -> Codec.is_uint64 version.
Proof. intros [= <- _]. apply stamp_uint64. Qed.

(** What the adapter seals is an envelope. *)
Lemma sealed_is_envelope (value : Codec.bytes) (version : N) :
  Codec.is_uint64 version ->
  is_Some
    (Codec.unmarshal
       (list_byte_of_string
          (string_of_list_byte
             (Codec.marshal (Codec.mkVersionedValue value version))))).
Proof.
  intros Hv.
  rewrite list_byte_of_string_of_list_byte, CodecFacts.unmarshal_marshal;
    [eauto | exact Hv].
Qed.

Lemma preserves_keys_loop (fuel : nat) (regex : string) :
  forall (cursor : Z) (allKeys : list string),
    preserves (keys_loop fuel regex cursor allKeys).
Proof.
  induction fuel as [|fuel IH]; intros cursor allKeys; cbn [keys_loop];
    destruct (cursor =? endCursor)%Z;
    try apply preserves_ret; try apply preserves_finish.
  apply preserves_bind; [apply preserves_Scan|].
  intros [c ks]. apply IH.
Qed.

Lemma preserves_keys (fuel : nat) (regex : string) :
  preserves (keys fuel regex).
Proof.
  apply preserves_bind; [apply preserves_Scan|]. intros [c ks].
  apply preserves_bind; [apply preserves_keys_loop|]. intros allKeys.
  destruct (length allKeys =? 0)%nat;
    [apply preserves_fail | apply preserves_ret].
Qed.

Lemma preserves_mget (ks : list string) : preserves (mget ks).
Proof.
  apply preserves_bind; [apply preserves_MGet|]. intros replies.
  apply preserves_finish.
Qed.

Section Invariant.

Variable normalize : string -> string.

Lemma preserves_adapter_Get (k : string) : preserves (Get normalize k).
Proof.
  apply preserves_bind; [apply preserves_attempt, preserves_Get|].
  intros [reply [e|]].
  - destruct (error_eqb e RedisNil); apply preserves_fail.
  - destruct reply as [reply|]; [|apply preserves_fail].
    destruct (Codec.unmarshal _);
      [apply preserves_ret | apply preserves_finish].
Qed.

Lemma preserves_Put (k : string) (v : Codec.bytes)
    (o : option WriteOptions) : preserves (Put normalize k v o).
Proof.
  apply (preserves_bind_with Codec.is_uint64);
    [apply preserves_timeBasedVersion | apply timeBasedVersion_uint64|].
  intros version Hv. apply preserves_Set, sealed_is_envelope, Hv.
Qed.

Lemma preserves_Delete (k : string) : preserves (Delete normalize k).
Proof.
  apply preserves_bind; [apply preserves_Del|]. intros n.
  apply preserves_ret.
Qed.

Lemma preserves_List (fuel : nat) (d : string) :
  preserves (List normalize fuel d).
Proof.
  apply preserves_bind; [apply preserves_keys|]. intros ks.
  apply preserves_mget.
Qed.

Lemma preserves_DeleteTree (fuel : nat) (d : string) :
  preserves (DeleteTree normalize fuel d).
Proof.
  apply preserves_bind; [apply preserves_keys|]. intros ks.
  apply preserves_bind; [apply preserves_Del|]. intros n.
  apply preserves_ret.
Qed.

Lemma preserves_write_new (k : string) (v : Codec.bytes)
    (o : option WriteOptions) : preserves (write_new normalize k v o).
Proof.
  apply (preserves_bind_with Codec.is_uint64);
    [apply preserves_timeBasedVersion | apply timeBasedVersion_uint64|].
  intros version Hv. apply preserves_bind.
  - apply preserves_attempt, preserves_SetNX, sealed_is_envelope, Hv.
  - intros [b [e|]]; apply preserves_ret.
Qed.

Lemma preserves_AtomicPut (k : string) (v : Codec.bytes)
    (p : option KVPair) (o : option WriteOptions) :
  preserves (AtomicPut normalize k v p o).
Proof.
  apply preserves_bind; [apply preserves_attempt, preserves_adapter_Get|].
  intros [existedOne err].
  destruct (other_than ErrKeyNotFound err); [apply preserves_ret|].
  destruct (is_nil p && negb (is_nil existedOne)); [apply preserves_ret|].
  apply preserves_bind.
  - destruct p as [prev|]; [|apply preserves_ret].
    destruct existedOne as [ex|]; [|apply preserves_ret].
    destruct (negb (LastIndex ex =? LastIndex prev)); [apply preserves_ret|].
    apply preserves_bind; [apply preserves_attempt, preserves_Delete|].
    intros [u e]. apply preserves_ret.
  - intros [e|]; [apply preserves_ret | apply preserves_write_new].
Qed.

Lemma preserves_AtomicDelete (k : string) (p : option KVPair) :
  preserves (AtomicDelete normalize k p).
Proof.
  apply preserves_bind; [apply preserves_attempt, preserves_adapter_Get|].
  intros [existedOne err].
  destruct (other_than ErrKeyNotFound err); [apply preserves_ret|].
  destruct (is_nil p && negb (is_nil existedOne)); [apply preserves_ret|].
  apply preserves_bind.
  - destruct p as [prev|]; [|apply preserves_ret].
    destruct existedOne as [ex|]; [|apply preserves_ret].
    destruct (negb (LastIndex ex =? LastIndex prev)); apply preserves_ret.
  - intros [e|]; [apply preserves_ret|].
    apply preserves_bind; [apply preserves_attempt, preserves_Delete|].
    intros [u e]. apply preserves_ret.
Qed.

Lemma sound_advance (d : Z) (w : World) : sound w -> sound (Engine.advance d w).
Proof.
  apply sound_subset. intros k e. unfold Engine.advance. cbn [db].
  rewrite map_lookup_filter_Some. tauto.
Qed.

Lemma run_preserves {A : Type} (c : M A) (w : World) :
  preserves c -> sound w -> sound (run c w).
Proof.
  intros Hc Hs. unfold run. destruct (c w) as [r w'] eqn:E.
  exact (Hc w r w' Hs E).
Qed.

(** Every world the adapter reaches from an empty engine holds envelopes
    only: the adapter never stores a bare value. *)
Lemma reachable_sound (w : World) : reachable normalize w -> sound w.
Proof.
  induction 1 as [t fs|d w _ IH|k v o w _ IH|k w _ IH|k w _ IH|k w _ IH
                 |fuel d w _ IH|fuel d w _ IH|k v p o w _ IH|k p w _ IH].
  - apply sound_iff. intros k e. cbn [db]. now rewrite lookup_empty.
  - now apply sound_advance.
  - apply run_preserves; [apply preserves_Put | exact IH].
  - apply run_preserves; [apply preserves_adapter_Get | exact IH].
  - apply run_preserves; [apply preserves_Delete | exact IH].
  - apply run_preserves; [|exact IH]. unfold Exists. apply preserves_Exists.
  - apply run_preserves; [apply preserves_List | exact IH].
  - apply run_preserves; [apply preserves_DeleteTree | exact IH].
  - apply run_preserves; [apply preserves_AtomicPut | exact IH].
  - apply run_preserves; [apply preserves_AtomicDelete | exact IH].
Qed.

End Invariant.

(* ===================================================================== *)
(** * The multi-get aggregator *)
(* ===================================================================== *)

(** The loop of [mget] at position [length pre], with [suf] still to go. *)
Lemma mget_loop_collects (w : World) (keys : list string) :
  forall (suf pre : list string) (acc : list KVPair),
    keys = pre ++ suf ->
    (forall k e, k ∈ suf -> db w !! k = Some e ->
       payload e <> EmptyString ->
       is_Some (Codec.unmarshal (list_byte_of_string (payload e)))) ->
    mget_loop keys (length pre)
      (map (fun k => payload <$> db w !! k) suf) acc
    = Ok (acc ++ omap (slot_pair w) suf).
Proof.
  induction suf as [|k suf IH]; intros pre acc Hkeys Hdec.
  - cbn. now rewrite app_nil_r.
  - cbn [map mget_loop omap list_omap].
    assert (Hk : keys !! length pre = Some k)
      by (rewrite Hkeys; now apply list_lookup_middle).
    rewrite Hk.
    assert (Hnext : mget_loop keys (S (length pre))
                      (map (fun k => payload <$> db w !! k) suf)
            = mget_loop keys (length (pre ++ [k]))
                      (map (fun k => payload <$> db w !! k) suf)).
    { rewrite length_app. cbn [length]. now rewrite Nat.add_1_r. }
    assert (Hrest : forall acc', mget_loop keys (S (length pre))
                      (map (fun k => payload <$> db w !! k) suf) acc'
                    = Ok (acc' ++ omap (slot_pair w) suf)).
    { intros acc'. rewrite Hnext. apply IH.
      - now rewrite <- app_assoc.
      - intros k' e Hin. apply Hdec. now right. }
    unfold slot_pair at 1.
    destruct (db w !! k) as [e|] eqn:Hdb; cbn [fmap option_fmap option_map].
    + destruct (String.eqb (payload e) EmptyString) eqn:He;
        [apply Hrest|].
      apply String.eqb_neq in He.
      destruct (Hdec k e ltac:(now left) Hdb He) as [vv Hvv].
      rewrite Hvv, Hrest, <- app_assoc. reflexivity.
    + cbn [String.eqb]. apply Hrest.
Qed.

(* ===================================================================== *)
(** * The scan aggregator *)
(* ===================================================================== *)

Lemma Scan_quiet (cursor : Z) (regex : string) (w : World) :
  quiet w ->
  Engine.Scan cursor regex defaultCount w =
    (Ok (if (cursor + defaultCount <? Z.of_nat (length (Engine.keyspace w)))%Z
         then (cursor + defaultCount)%Z else 0%Z,
         List.filter (Engine.glob regex)
           (take (Z.to_nat defaultCount)
                 (drop (Z.to_nat cursor) (Engine.keyspace w)))),
     w).
Proof.
  intros Hq. unfold Engine.Scan. now rewrite command_quiet by exact Hq.
Qed.

(** Once the first page has not finished the scan, no later round does:
    each round asks for the first page again. *)
Lemma keys_loop_rescans (regex : string) (w : World) :
  quiet w ->
  (10 < length (Engine.keyspace w))%nat ->
  forall (fuel : nat) (cursor : Z) (allKeys : list string),
    cursor <> endCursor ->
    keys_loop fuel regex cursor allKeys w = (OutOfFuel, w).
Proof.
  intros Hq Hlen. induction fuel as [|fuel IH]; intros cursor allKeys Hc;
    cbn [keys_loop];
    (destruct (Z.eqb_spec cursor endCursor) as [E|_]; [contradiction|]).
  - reflexivity.
  - unfold_M. rewrite Scan_quiet by exact Hq.
    unfold startCursor, defaultCount.
    destruct (Z.ltb_spec (0 + 10) (Z.of_nat (length (Engine.keyspace w))))
      as [_|Hge]; [|lia].
    apply IH. unfold endCursor. lia.
Qed.

(** On a keyspace of more than one page, [keys] has not returned, whatever
    the fuel. *)
Lemma keys_never_returns (fuel : nat) (regex : string) (w : World) :
  quiet w ->
  (10 < length (Engine.keyspace w))%nat ->
  keys fuel regex w = (OutOfFuel, w).
Proof.
  intros Hq Hlen. unfold keys.
  unfold mbind at 1. unfold M_bind, bind at 1.
  rewrite Scan_quiet by exact Hq. unfold startCursor, defaultCount.
  destruct (Z.ltb_spec (0 + 10) (Z.of_nat (length (Engine.keyspace w))))
    as [_|Hge]; [|lia].
  unfold_M. rewrite (keys_loop_rescans regex w Hq Hlen); [reflexivity|].
  unfold endCursor. lia.
Qed.

(** On a keyspace that one page covers, [keys] returns the matching keys, or
    [ErrKeyNotFound] when there is none. *)
Lemma keys_single_page (fuel : nat) (regex : string) (w : World) :
  quiet w ->
  (length (Engine.keyspace w) <= 10)%nat ->
  keys fuel regex w =
    (match matching regex w with
     | [] => Err ErrKeyNotFound
     | _ :: _ => Ok (matching regex w)
     end, w).
Proof.
  intros Hq Hlen. unfold keys.
  unfold mbind at 1. unfold M_bind, bind at 1.
  rewrite Scan_quiet by exact Hq. unfold startCursor, defaultCount.
  destruct (Z.ltb_spec (0 + 10) (Z.of_nat (length (Engine.keyspace w))))
    as [Hlt|_]; [lia|].
  change (Z.to_nat 0) with 0%nat. rewrite drop_0.
  rewrite take_ge by (change (Z.to_nat 10) with 10%nat; lia).
  fold (matching regex w).
  destruct fuel; cbn [keys_loop Z.eqb endCursor]; unfold_M;
    cbn [app]; now destruct (matching regex w).
Qed.

(** ** The aggregator that resumes from the returned cursor *)

Lemma Scan_page (cursor : Z) (regex : string) (w : World) :
  quiet w -> (0 <= cursor)%Z ->
  Engine.Scan cursor regex defaultCount w =
    (Ok (if (cursor + 10 <? Z.of_nat (length (Engine.keyspace w)))%Z
         then (cursor + 10)%Z else 0%Z,
         List.filter (Engine.glob regex)
           (take 10 (drop (Z.to_nat cursor) (Engine.keyspace w)))),
     w).
Proof. intros Hq _. now rewrite Scan_quiet by exact Hq. Qed.

(** From a cursor inside the keyspace, enough rounds collect the matching
    keys from that position on. *)
Lemma keys_loop_resuming_collects (regex : string) (w : World) :
  quiet w ->
  forall (fuel : nat) (cursor : Z) (allKeys : list string),
    (0 < cursor < Z.of_nat (length (Engine.keyspace w)))%Z ->
    (Z.of_nat (length (Engine.keyspace w)) <= cursor + 10 * Z.of_nat fuel)%Z ->
    keys_loop_resuming fuel regex cursor allKeys w =
      (Ok (allKeys ++ List.filter (Engine.glob regex)
                        (drop (Z.to_nat cursor) (Engine.keyspace w))), w).
Proof.
  intros Hq. set (ks := Engine.keyspace w).
  induction fuel as [|fuel IH]; intros cursor allKeys Hc Hfuel; [lia|].
  cbn [keys_loop_resuming].
  destruct (Z.eqb_spec cursor endCursor) as [E|_];
    [unfold endCursor in E; lia|].
  unfold_M. rewrite Scan_page by (exact Hq || lia). fold ks.
  destruct (Z.ltb_spec (cursor + 10) (Z.of_nat (length ks))) as [Hlt|Hge].
  - rewrite IH by lia. rewrite <- app_assoc, <- List.filter_app.
    replace (Z.to_nat (cursor + 10)) with (Z.to_nat cursor + 10)%nat by lia.
    now rewrite <- drop_drop, take_drop.
  - destruct fuel; cbn [keys_loop_resuming Z.eqb endCursor];
      (rewrite take_ge by (rewrite length_drop; lia)); reflexivity.
Qed.

(** On every world whose commands get through, the resuming aggregator
    returns the matching keys, all of them, once it has fuel for the pages
    of the keyspace. *)
Lemma keys_resuming_complete (fuel : nat) (regex : string) (w : World) :
  quiet w ->
  (length (Engine.keyspace w) <= 10 * S fuel)%nat ->
  keys_resuming fuel regex w =
    (match matching regex w with
     | [] => Err ErrKeyNotFound
     | _ :: _ => Ok (matching regex w)
     end, w).
Proof.
  intros Hq Hfuel. unfold keys_resuming, matching.
  set (ks := Engine.keyspace w) in *.
  unfold mbind at 1. unfold M_bind, bind at 1.
  unfold startCursor. rewrite Scan_page by (exact Hq || lia). fold ks.
  change (Z.to_nat 0) with 0%nat. rewrite drop_0. cbn [app].
  destruct (Z.ltb_spec (0 + 10) (Z.of_nat (length ks))) as [Hlt|Hge].
  - unfold mbind. unfold M_bind, bind.
    rewrite (keys_loop_resuming_collects regex w Hq) by (fold ks; lia).
    fold ks. change (Z.to_nat (0 + 10)) with 10%nat.
    rewrite <- List.filter_app, take_drop.
    unfold_M. now destruct (List.filter _ ks).
  - rewrite take_ge by lia.
    destruct fuel; cbn [keys_loop_resuming Z.eqb endCursor]; unfold_M;
      now destruct (List.filter _ ks).
Qed.

(** [DeleteTree] and [List] hand on whatever error [keys] returned. *)
Lemma keys_error_propagates (normalize : string -> string) (fuel : nat)
    (directory : string) (w w' : World) (e : error) :
  keys fuel (normalize directory +:+ "*") w = (Err e, w') ->
  DeleteTree normalize fuel directory w = (Err e, w')
  /\ List normalize fuel directory w = (Err e, w').
Proof.
  intros H. unfold DeleteTree, List.
  unfold mbind at 1 3. unfold M_bind, bind at 1 3. now rewrite H.
Qed.

(** Listing or deleting a directory with no key under it, in a keyspace one
    page covers: both fail with [ErrKeyNotFound]. *)
Lemma empty_directory_single_page (normalize : string -> string)
    (fuel : nat) (directory : string) (w : World) :
  quiet w ->
  (length (Engine.keyspace w) <= 10)%nat ->
  matching (normalize directory +:+ "*") w = [] ->
  List normalize fuel directory w = (Err ErrKeyNotFound, w)
  /\ DeleteTree normalize fuel directory w = (Err ErrKeyNotFound, w).
Proof.
  intros Hq Hlen Hnone.
  pose proof (keys_single_page fuel (normalize directory +:+ "*") w Hq Hlen)
    as H.
  rewrite Hnone in H.
  destruct (keys_error_propagates normalize fuel directory w w _ H).
  now split.
Qed.

Lemma crowded_quiet : quiet crowded.
Proof. reflexivity. Qed.

Lemma crowded_keyspace : length (Engine.keyspace crowded) = 11%nat.
Proof. vm_compute. reflexivity. Qed.

(* ===================================================================== *)
(** * The specification, claim by claim *)
(* ===================================================================== *)

(** C1, on a keyspace of eleven keys under ["/a"].  All eleven match the
    pattern, and the aggregator as the spec words it (resuming from the
    returned cursor) returns the eleven after one more round; the [keys] of
    the source asks for the first page in every round and has not returned
    after any number of rounds. *)
Theorem keys_rescans_first_page :
  length (matching "/a*" crowded) = 11%nat
  /\ (exists all,
        keys_resuming 1 "/a*" crowded = (Ok all, crowded)
        /\ all ≡ₚ matching "/a*" crowded)
  /\ (forall fuel, keys fuel "/a*" crowded = (OutOfFuel, crowded)).
Proof.
  split; [vm_compute; reflexivity|]. split.
  - eexists. split; [vm_compute; reflexivity|].
    vm_compute. reflexivity.
  - intros fuel. apply keys_never_returns; [exact crowded_quiet|].
    rewrite crowded_keyspace. lia.
Qed.

(** C2.  When every engine command gets through and what is stored under
    the key is an envelope, [AtomicPut] and [AtomicDelete] fail with
    [ErrKeyModified] exactly when [previous] is nil and the key exists, or
    [previous] is non-nil and the key is absent, or [previous] is non-nil
    and its [LastIndex] differs from the stored version; a failure leaves
    the engine as it was.  In every other case [AtomicDelete] deletes the
    key and reports success, and [AtomicPut] writes the sealed value and
    reports success with the new pair, provided that the engine takes the
    expiration of the conditional write: none, or a millisecond and more.
    With any other expiration the engine turns the write down, [AtomicPut]
    hands its error back, and when [previous] was non-nil the key has been
    deleted by then. *)
Theorem cas_decision_table (normalize : string -> string) (key : string)
    (value : Codec.bytes) (previous : option KVPair)
    (options : option WriteOptions) (w : World) :
  quiet w -> sound_at w (normalize key) ->
  let conflict :=
    (previous = None /\ is_Some (db w !! normalize key))
    \/ (is_Some previous /\ db w !! normalize key = None)
    \/ (exists p v, previous = Some p
          /\ stored_version w (normalize key) = Some v
          /\ LastIndex p <> v) in
  (AtomicPut normalize key value previous options w
     = (Ok (false, None, Some ErrKeyModified), w) <-> conflict)
  /\ (AtomicDelete normalize key previous w
        = (Ok (false, Some ErrKeyModified), w) <-> conflict)
  /\ (~ conflict ->
        AtomicDelete normalize key previous w
          = (Ok (true, None),
             mkWorld (delete (normalize key) (db w)) (now w) (faults w))
        /\ (ttl_accepted (expiration_of options) ->
             AtomicPut normalize key value previous options w
               = (Ok (true,
                      Some (mkKVPair (normalize key) value
                                     (uint64_of_int (Nanosecond (now w)))),
                      None),
                  Engine.store (normalize key) (sealed value w)
                               (expiration_of options) w))
        /\ (~ ttl_accepted (expiration_of options) ->
             AtomicPut normalize key value previous options w
               = (Ok (false, None, Some Engine.invalid_expire_time),
                  match previous with
                  | Some _ =>
                      mkWorld (delete (normalize key) (db w)) (now w)
                              (faults w)
                  | None => w
                  end))).
Proof.
  intros Hq Hs conflict.
  pose proof (key_modified_iff previous w (normalize key) Hs) as Hkm.
  fold conflict in Hkm.
  pose proof (SetNX_accepts_iff (expiration_of options)) as Hacc.
  rewrite (AtomicPut_quiet normalize key value previous options w Hq Hs).
  rewrite (AtomicDelete_quiet normalize key previous w Hq Hs).
  destruct (key_modified previous (stored_version w (normalize key))).
  - repeat split; tauto.
  - assert (Hno : ~ conflict) by (rewrite <- Hkm; discriminate).
    split; [|split].
    + split; [|tauto].
      destruct (Engine.SetNX_accepts (expiration_of options));
        discriminate.
    + split; [discriminate | tauto].
    + intros _. split; [reflexivity|].
      destruct (Engine.SetNX_accepts (expiration_of options)).
      * split; [reflexivity|]. intros Hn. destruct Hn. now apply Hacc.
      * split; [|reflexivity]. intros Ha. apply Hacc in Ha. discriminate.
Qed.

Lemma cas_decision_table_witness :
  (AtomicPut Normalize "k" (text "new") (Some (mkKVPair "k" (text "old") 4))
             None first_write
     = (Ok (false, None, Some ErrKeyModified), first_write)
   /\ AtomicDelete Normalize "k" (Some (mkKVPair "k" (text "old") 4))
                   first_write
     = (Ok (false, Some ErrKeyModified), first_write))
  /\ (AtomicPut Normalize "k" (text "new")
                (Some (mkKVPair "k" (text "old") 5))
                (Some (mkWriteOptions 2500000)) first_write).1
     = Ok (true, Some (mkKVPair "/k" (text "new") 5), None)
  /\ AtomicPut Normalize "k" (text "new")
               (Some (mkKVPair "k" (text "old") 5))
               (Some (mkWriteOptions 999999)) first_write
     = (Ok (false, None, Some Engine.invalid_expire_time),
        empty_world 5).
Proof.
  assert (Hq : quiet first_write) by reflexivity.
  assert (Hs : sound_at first_write (Normalize "k"))
    by (vm_compute; discriminate).
  split; [|split].
  - destruct (cas_decision_table Normalize "k" (text "new")
                (Some (mkKVPair "k" (text "old") 4)) None first_write Hq Hs)
      as (HP & HD & _).
    assert (Hc : exists p v, Some (mkKVPair "k" (text "old") 4) = Some p
               /\ stored_version first_write (Normalize "k") = Some v
               /\ LastIndex p <> v).
    { exists (mkKVPair "k" (text "old") 4), 5. repeat split.
      cbn [LastIndex]. lia. }
    split; [apply HP | apply HD]; right; right; exact Hc.
  - destruct (cas_decision_table Normalize "k" (text "new")
                (Some (mkKVPair "k" (text "old") 5))
                (Some (mkWriteOptions 2500000)) first_write Hq Hs)
      as (_ & _ & HS).
    destruct HS as (_ & HA & _).
    + intros [[[=] _]|[[_ Hx]|(p & v & [= <-] & Hv & Hne)]].
      * vm_compute in Hx. discriminate.
      * vm_compute in Hv. injection Hv as <-. now apply Hne.
    + rewrite HA; [vm_compute; reflexivity|].
      right. vm_compute. discriminate.
  - destruct (cas_decision_table Normalize "k" (text "new")
                (Some (mkKVPair "k" (text "old") 5))
                (Some (mkWriteOptions 999999)) first_write Hq Hs)
      as (_ & _ & HS).
    destruct HS as (_ & _ & HR).
    + intros [[[=] _]|[[_ Hx]|(p & v & [= <-] & Hv & Hne)]].
      * vm_compute in Hx. discriminate.
      * vm_compute in Hv. injection Hv as <-. now apply Hne.
    + rewrite HR; [vm_compute; reflexivity|].
      intros [Hz|Hm]; [discriminate Hz|].
      vm_compute in Hm. now apply Hm.
Defined.

(** C3, as amended.  When every engine command gets through,
    [AtomicPut(k, v, nil, nil)] succeeds if and only if [k] did not exist;
    on success the pair it returns carries [v] and the version that
    [timeBasedVersion] read at write time, which is the nanosecond offset of
    the clock within its second (below [10^9]) and is the version now stored
    for [k].  Nothing makes that offset differ from earlier versions. *)
Theorem atomic_create (normalize : string -> string) (k : string)
    (v : Codec.bytes) (w : World) :
  quiet w ->
  ((exists pair w',
      AtomicPut normalize k v None None w = (Ok (true, Some pair, None), w'))
   <-> db w !! normalize k = None)
  /\ (forall pair w',
        AtomicPut normalize k v None None w
          = (Ok (true, Some pair, None), w') ->
        Value pair = v
        /\ LastIndex pair = uint64_of_int (Nanosecond (now w))
        /\ LastIndex pair < 1000000000
        /\ stored_version w' (normalize k) = Some (LastIndex pair)).
Proof.
  intros Hq. split; [split|].
  - intros (pair & w' & H). now apply AtomicPut_create_absent in H.
  - intros Hk.
    assert (Hs : sound_at w (normalize k))
      by (unfold sound_at, envelope; now rewrite Hk).
    rewrite (AtomicPut_quiet normalize k v None None w Hq Hs).
    rewrite (proj2 (stored_version_None w (normalize k) Hs) Hk).
    cbn [key_modified]. eauto.
  - intros pair w' H.
    apply AtomicPut_success in H as [-> Hdb]. cbn [Value LastIndex].
    repeat split; [apply stamp_bound|].
    unfold stored_version, envelope. rewrite Hdb.
    cbn [fmap option_fmap option_map payload].
    now rewrite unmarshal_sealed.
Qed.

Lemma atomic_create_witness :
  exists pair w',
    AtomicPut Normalize "k" (text "new") None None one_second_later
      = (Ok (true, Some pair, None), w').
Proof.
  assert (Hq : quiet one_second_later) by reflexivity.
  apply (proj1 (atomic_create Normalize "k" (text "new") one_second_later
                  Hq)).
  vm_compute. reflexivity.
Defined.

(** C3, the claim as worded: the version [AtomicPut(k, v, nil, nil)] returns
    need not differ from a version stored for [k] before.  [k] is written
    when the clock's nanosecond field reads 5 and deleted; exactly one second
    later the create succeeds and returns version 5 again. *)
Lemma atomic_create_repeats_version :
  Get Normalize "k" first_write
    = (Ok (mkKVPair "k" (text "old") 5), first_write)
  /\ now one_second_later = (now first_write + 1000000000)%Z
  /\ (AtomicPut Normalize "k" (text "new") None None one_second_later).1
    = Ok (true, Some (mkKVPair "/k" (text "new") 5), None).
Proof. vm_compute. repeat split. Qed.

(** C4, on the same keyspace.  No key matches the pattern of directory
    ["b"], yet neither [List] nor [DeleteTree] fails with [ErrKeyNotFound]:
    the first page does not finish the scan, and the loop of [keys] asks for
    it again in every round. *)
Theorem empty_directory_never_answers :
  matching (Normalize "b" +:+ "*") crowded = []
  /\ (forall fuel, List Normalize fuel "b" crowded = (OutOfFuel, crowded))
  /\ (forall fuel,
        DeleteTree Normalize fuel "b" crowded = (OutOfFuel, crowded)).
Proof.
  assert (H : forall fuel regex,
             keys fuel regex crowded = (OutOfFuel, crowded)).
  { intros fuel regex. apply keys_never_returns; [exact crowded_quiet|].
    rewrite crowded_keyspace. lia. }
  split; [vm_compute; reflexivity|].
  split; intros fuel; unfold List, DeleteTree;
    unfold mbind at 1; unfold M_bind, bind at 1; now rewrite H.
Qed.

(** C5.  For every byte payload [v] (nil or not) and every [uint64] version
    [n], decoding the encoded envelope gives back exactly the pair [(v, n)],
    and the encoding depends on the pair only. *)
Theorem envelope_round_trip (v : Codec.bytes) (n : N) :
  Codec.is_uint64 n ->
  Codec.unmarshal (Codec.marshal (Codec.mkVersionedValue v n))
    = Some (Codec.mkVersionedValue v n)
  /\ (forall v' n', (v', n') = (v, n) ->
        Codec.marshal (Codec.mkVersionedValue v' n')
          = Codec.marshal (Codec.mkVersionedValue v n)).
Proof.
  intros Hn. split.
  - now apply CodecFacts.unmarshal_marshal.
  - now intros v' n' [= -> ->].
Qed.

Lemma envelope_round_trip_witness :
  Codec.is_uint64 18446744073709551615
  /\ Codec.unmarshal
       (Codec.marshal (Codec.mkVersionedValue (text "hello")
                                              18446744073709551615))
     = Some (Codec.mkVersionedValue (text "hello") 18446744073709551615).
Proof.
  assert (H : Codec.is_uint64 18446744073709551615)
    by (unfold Codec.is_uint64, Codec.uint64_max; lia).
  split; [exact H|].
  exact (proj1 (envelope_round_trip (text "hello") 18446744073709551615 H)).
Defined.

(** C6.  After a successful [Put(k, v, nil)], [Get(k)] returns the pair
    [{k, v, someVersion}] with no error: its [Key] is the caller's key and
    its [Value] is [v]; and [Get] on a key with no stored value fails with
    [ErrKeyNotFound].  ([quiet]: the read reaches the engine.) *)
Theorem put_then_get (normalize : string -> string) (k : string)
    (v : Codec.bytes) (w w1 : World) :
  (Put normalize k v None w = (Ok tt, w1) ->
   quiet w1 ->
   exists version, Get normalize k w1 = (Ok (mkKVPair k v version), w1))
  /\ (quiet w ->
      db w !! normalize k = None ->
      Get normalize k w = (Err ErrKeyNotFound, w)).
Proof.
  split.
  - intros HPut Hq. destruct (Put_ok normalize _ _ _ _ _ HPut) as [Hdb _].
    exists (uint64_of_int (Nanosecond (now w))).
    rewrite Get_quiet_eq by exact Hq.
    rewrite Hdb, lookup_insert_eq. cbn [payload].
    now rewrite unmarshal_sealed.
  - intros Hq Hk. rewrite Get_quiet_eq by exact Hq. now rewrite Hk.
Qed.

Lemma put_then_get_witness :
  (exists version,
     Get Normalize "a/b" (run (Put Normalize "a/b" (text "1") None)
                              (empty_world 5))
     = (Ok (mkKVPair "a/b" (text "1") version),
        run (Put Normalize "a/b" (text "1") None) (empty_world 5)))
  /\ Get Normalize "a/b" (empty_world 5)
     = (Err ErrKeyNotFound, empty_world 5).
Proof.
  destruct (put_then_get Normalize "a/b" (text "1") (empty_world 5)
              (run (Put Normalize "a/b" (text "1") None) (empty_world 5)))
    as [H1 H2].
  split; [apply H1; reflexivity | apply H2; reflexivity].
Defined.

(** C7, as amended.  When the batched retrieval succeeds, [mget] does not
    fail over missing keys: a position whose slot is absent or empty
    contributes nothing, and every other slot is decoded into a pair, in
    order.  The pair is keyed by the string [mget] was given at that
    position, which is the key it looked up: [mget] normalises nothing and
    has no other key at hand. *)
Theorem mget_skips_absent (keys : list string) (w w' : World)
    (replies : list (option string)) :
  Engine.MGet keys w = (Ok replies, w') ->
  (forall k e, k ∈ keys -> db w !! k = Some e ->
     payload e <> EmptyString ->
     is_Some (Codec.unmarshal (list_byte_of_string (payload e)))) ->
  mget keys w = (Ok (omap (slot_pair w) keys), w')
  /\ (forall k p, slot_pair w k = Some p ->
        Key p = k
        /\ exists e, db w !! k = Some e
             /\ Codec.unmarshal (list_byte_of_string (payload e))
                = Some (Codec.mkVersionedValue (Value p) (LastIndex p)))
  /\ (forall p, p ∈ omap (slot_pair w) keys ->
        Key p ∈ keys /\ is_Some (db w !! Key p))
  /\ (forall k, k ∈ keys -> db w !! k = None -> slot_pair w k = None).
Proof.
  intros HM Hdec. split; [|split; [|split]].
  - pose proof (MGet_inv keys w w' replies HM) as [_ ->].
    pose proof (mget_loop_collects w keys keys [] [] eq_refl Hdec) as HL.
    cbn [length app] in HL.
    unfold mget. unfold_M. now rewrite HM, HL.
  - intros k p Hs. unfold slot_pair in Hs.
    destruct (db w !! k) as [e|] eqn:Hdb; [|discriminate].
    destruct (String.eqb _ _); [discriminate|].
    destruct (Codec.unmarshal _) as [[val ver]|] eqn:Hvv; [|discriminate].
    injection Hs as <-. cbn [Key Value LastIndex Codec.Value Codec.Version].
    split; [reflexivity|]. exists e. now split.
  - intros p Hp. apply list_elem_of_omap in Hp as (k & Hk & Hs).
    unfold slot_pair in Hs.
    destruct (db w !! k) as [e|] eqn:Hdb; [|discriminate].
    destruct (String.eqb _ _); [discriminate|].
    destruct (Codec.unmarshal _); [|discriminate].
    injection Hs as <-. cbn [Key]. rewrite Hdb. eauto.
  - intros k _ Hk. unfold slot_pair. now rewrite Hk.
Qed.

Lemma mget_skips_absent_witness :
  mget ["/a/b"; "/a/zzz"; "/a/c"]
       (run (Put Normalize "a/c" (text "2") None)
            (run (Put Normalize "a/b" (text "1") None) (empty_world 5)))
  = (Ok [mkKVPair "/a/b" (text "1") 5; mkKVPair "/a/c" (text "2") 5],
     run (Put Normalize "a/c" (text "2") None)
         (run (Put Normalize "a/b" (text "1") None) (empty_world 5))).
Proof.
  pose (w := run (Put Normalize "a/c" (text "2") None)
               (run (Put Normalize "a/b" (text "1") None) (empty_world 5))).
  assert (HM : Engine.MGet ["/a/b"; "/a/zzz"; "/a/c"] w
               = (Ok (map (fun k => payload <$> db w !! k)
                          ["/a/b"; "/a/zzz"; "/a/c"]), w))
    by reflexivity.
  assert (Hdec : forall k e, k ∈ ["/a/b"; "/a/zzz"; "/a/c"] ->
            db w !! k = Some e -> payload e <> EmptyString ->
            is_Some (Codec.unmarshal (list_byte_of_string (payload e)))).
  { intros k e Hk He _.
    assert (Hcases : k = "/a/b" \/ k = "/a/zzz" \/ k = "/a/c").
    { repeat (apply elem_of_cons in Hk as [Hk|Hk]; [tauto|]).
      now apply elem_of_nil in Hk. }
    destruct Hcases as [-> | [-> | ->]]; vm_compute in He;
      try discriminate; injection He as <-; vm_compute; eauto. }
  pose proof (proj1 (mget_skips_absent _ w w _ HM Hdec)) as H.
  vm_compute in H |- *. exact H.
Defined.

(** C7, the claim as worded: the pairs are not keyed by the logical keys the
    values were written under.  A value is written under the logical key
    ["a/b"], and [Get] returns it under that key; [List] hands [mget] the
    flat keys of the scan, and the pair [mget] emits is keyed ["/a/b"]. *)
Lemma mget_emits_the_flat_key :
  Normalize "a/b" = "/a/b"
  /\ Get Normalize "a/b"
         (run (Put Normalize "a/b" (text "1") None) (empty_world 5))
     = (Ok (mkKVPair "a/b" (text "1") 5),
        run (Put Normalize "a/b" (text "1") None) (empty_world 5))
  /\ List Normalize 0 "a"
          (run (Put Normalize "a/b" (text "1") None) (empty_world 5))
     = (Ok [mkKVPair "/a/b" (text "1") 5],
        run (Put Normalize "a/b" (text "1") None) (empty_world 5))
  /\ mget ["/a/b"]
          (run (Put Normalize "a/b" (text "1") None) (empty_world 5))
     = (Ok [mkKVPair "/a/b" (text "1") 5],
        run (Put Normalize "a/b" (text "1") None) (empty_world 5)).
Proof. vm_compute. repeat split. Qed.

(** C8.  A successful [AtomicPut] returns a pair whose [Key] is the
    normalised flat key, while [Get] of the same logical key returns the
    same value and version under the caller's own key: the two [Key] fields
    differ whenever normalisation changes the key. *)
Theorem atomic_put_key_is_flat (normalize : string -> string) (key : string)
    (value : Codec.bytes) (previous : option KVPair)
    (options : option WriteOptions) (w w' : World) (pair : KVPair) :
  AtomicPut normalize key value previous options w
    = (Ok (true, Some pair, None), w') ->
  quiet w' ->
  Key pair = normalize key
  /\ exists p,
       Get normalize key w' = (Ok p, w')
       /\ Key p = key
       /\ Value p = Value pair
       /\ LastIndex p = LastIndex pair
       /\ (normalize key <> key -> Key p <> Key pair).
Proof.
  intros H Hq. apply AtomicPut_success in H as [-> Hdb].
  split; [reflexivity|].
  eexists. rewrite Get_quiet_eq by exact Hq.
  rewrite Hdb. cbn [payload]. rewrite unmarshal_sealed.
  split; [reflexivity|]. cbn [Key Value LastIndex Codec.Value Codec.Version].
  repeat split. congruence.
Qed.

Lemma atomic_put_key_is_flat_witness :
  exists p w',
    (AtomicPut Normalize "a/b" (text "1") None None (empty_world 5)).1
      = Ok (true, Some (mkKVPair "/a/b" (text "1") 5), None)
    /\ Get Normalize "a/b" w' = (Ok p, w')
    /\ Key p = "a/b".
Proof.
  pose (w' := (AtomicPut Normalize "a/b" (text "1") None None
                 (empty_world 5)).2).
  destruct (atomic_put_key_is_flat Normalize "a/b" (text "1") None None
              (empty_world 5) w' (mkKVPair "/a/b" (text "1") 5))
    as (_ & p & HG & HK & _).
  - vm_compute. reflexivity.
  - reflexivity.
  - exists p, w'. repeat split; [exact HG | exact HK].
Defined.

(** C9.  [Watch], [WatchTree] and [NewLock] return the fixed
    [ErrNotImplemented] with no result, whatever their arguments, and leave
    the world as it was: no engine command is issued. *)
Theorem unsupported_calls (LockOptions : Type) (key : string)
    (stopCh : chan unit) (options : option LockOptions) (w : World) :
  Watch key stopCh w = (Err ErrNotImplemented, w)
  /\ WatchTree key stopCh w = (Err ErrNotImplemented, w)
  /\ NewLock key options w = (Err ErrNotImplemented, w).
Proof. repeat split. Qed.

(** C10, as amended.  [New] guards the endpoint count first and the options
    second, and does not guard the empty list: more than one endpoint gives
    [ErrMultipleEndpointsUnsupported] whatever the options; otherwise
    non-nil options give [ErrTLSUnsupported]; otherwise an empty list runs
    into the out-of-range access [endpoints[0]], and a single endpoint
    becomes the client's address. *)
Theorem New_guards (Config : Type) (endpoints : list string)
    (options : option Config) :
  New endpoints options =
    match endpoints, options with
    | _ :: _ :: _, _ => Err ErrMultipleEndpointsUnsupported
    | _, Some _ => Err ErrTLSUnsupported
    | [], None => Panic
    | [addr], None =>
        Ok (mkRedis (mkOptions addr (5 * Second) (30 * Second) (30 * Second)))
    end.
Proof.
  destruct endpoints as [|a [|b rest]], options as [c|]; reflexivity.
Qed.

(** C10, the claim as worded: non-nil options do not always give
    [ErrTLSUnsupported]; with two endpoints the endpoint check answers. *)
Lemma New_two_endpoints_with_options :
  New ["10.0.0.1:6379"; "10.0.0.2:6379"] (Some tt)
    = Err ErrMultipleEndpointsUnsupported
  /\ New ["10.0.0.1:6379"; "10.0.0.2:6379"] (Some tt)
    <> Err ErrTLSUnsupported.
Proof. split; [reflexivity | discriminate]. Qed.

(* ===================================================================== *)
(** * Further properties of the adapter *)
(* ===================================================================== *)

(** ** Calls that only read *)

Lemma reads_only_ret {A : Type} (a : A) : reads_only (ret a).
Proof. now intros w r w' [= _ <-]. Qed.

Lemma reads_only_fail {A : Type} (e : error) : reads_only (@fail A e).
Proof. now intros w r w' [= _ <-]. Qed.

Lemma reads_only_finish {A : Type} (r : result A) : reads_only (finish r).
Proof. now intros w r' w' [= _ <-]. Qed.

Lemma reads_only_bind {A B : Type} (c : M A) (k : A -> M B) :
  reads_only c -> (forall a, reads_only (k a)) -> reads_only (bind c k).
Proof.
  intros Hc Hk w r w'. unfold bind.
  destruct (c w) as [[a|e| |] w1] eqn:E; destruct (Hc _ _ _ E) as [Hd Hn].
  - intros H. destruct (Hk _ _ _ _ H). split; congruence.
  - now intros [= _ <-].
  - now intros [= _ <-].
  - now intros [= _ <-].
Qed.

Lemma reads_only_attempt {A : Type} (c : M A) :
  reads_only c -> reads_only (attempt c).
Proof.
  intros Hc w r w'. unfold attempt.
  destruct (c w) as [[a|e| |] w1] eqn:E; destruct (Hc _ _ _ E);
    now intros [= _ <-].
Qed.

Lemma reads_only_command {A : Type} (body : World -> result A * World) :
  (forall w r w', body w = (r, w') -> w' = w) ->
  reads_only (Engine.command body).
Proof.
  intros Hb w r w' H.
  apply command_inv in H as [(_ & Hdb & Hnow)|(w0 & Hdb & Hnow & H)];
    [now split|].
  apply Hb in H as ->. now split.
Qed.

Lemma reads_only_Engine_Get (k : string) : reads_only (Engine.Get k).
Proof.
  apply reads_only_command. intros w r w'.
  now destruct (db w !! k); intros [= _ <-].
Qed.

Lemma reads_only_Engine_Exists (k : string) : reads_only (Engine.Exists k).
Proof. apply reads_only_command. now intros w r w' [= _ <-]. Qed.

Lemma reads_only_MGet (ks : list string) : reads_only (Engine.MGet ks).
Proof.
  apply reads_only_command. intros w r w'.
  now destruct ks; intros [= _ <-].
Qed.

Lemma reads_only_Scan (c : Z) (pat : string) (n : Z) :
  reads_only (Engine.Scan c pat n).
Proof.
  apply reads_only_command. intros w r w'.
  now destruct (n <=? 0)%Z; intros [= _ <-].
Qed.

Lemma reads_only_keys_loop (fuel : nat) (regex : string) :
  forall (cursor : Z) (allKeys : list string),
    reads_only (keys_loop fuel regex cursor allKeys).
Proof.
  induction fuel as [|fuel IH]; intros cursor allKeys; cbn [keys_loop];
    destruct (cursor =? endCursor)%Z;
    try apply reads_only_ret; try apply reads_only_finish.
  apply reads_only_bind; [apply reads_only_Scan|].
  intros [c ks]. apply IH.
Qed.

Lemma reads_only_keys (fuel : nat) (regex : string) :
  reads_only (keys fuel regex).
Proof.
  apply reads_only_bind; [apply reads_only_Scan|]. intros [c ks].
  apply reads_only_bind; [apply reads_only_keys_loop|]. intros allKeys.
  destruct (length allKeys =? 0)%nat;
    [apply reads_only_fail | apply reads_only_ret].
Qed.

Lemma reads_only_mget (ks : list string) : reads_only (mget ks).
Proof.
  apply reads_only_bind; [apply reads_only_MGet|]. intros replies.
  apply reads_only_finish.
Qed.

Lemma reads_only_Get (normalize : string -> string) (k : string) :
  reads_only (Get normalize k).
Proof.
  apply reads_only_bind; [apply reads_only_attempt, reads_only_Engine_Get|].
  intros [reply [e|]].
  - destruct (error_eqb e RedisNil); apply reads_only_fail.
  - destruct reply as [reply|]; [|apply reads_only_fail].
    destruct (Codec.unmarshal _);
      [apply reads_only_ret | apply reads_only_finish].
Qed.

Lemma reads_only_List (normalize : string -> string) (fuel : nat)
    (d : string) : reads_only (List normalize fuel d).
Proof.
  apply reads_only_bind; [apply reads_only_keys|]. intros ks.
  apply reads_only_mget.
Qed.

(** X1.  [Get], [Exists], [keys], [mget] and [List] never write: whatever
    the fault schedule, the fuel and the way the call ends, the keyspace
    after the call is the keyspace before it. *)
Theorem reading_calls_keep_the_keyspace (normalize : string -> string)
    (fuel : nat) (k : string) (ks : list string) (w : World) :
  db (run (Get normalize k) w) = db w
  /\ db (run (Exists normalize k) w) = db w
  /\ db (run (keys fuel k) w) = db w
  /\ db (run (mget ks) w) = db w
  /\ db (run (List normalize fuel k) w) = db w.
Proof.
  assert (H : forall (A : Type) (c : M A), reads_only c -> db (run c w) = db w).
  { intros A c Hc. unfold run. destruct (c w) as [r w'] eqn:E.
    now destruct (Hc _ _ _ E). }
  repeat split; apply H.
  - apply reads_only_Get.
  - apply reads_only_Engine_Exists.
  - apply reads_only_keys.
  - apply reads_only_mget.
  - apply reads_only_List.
Qed.

(** ** What the scan aggregator returns *)

Lemma elem_of_keyspace (w : World) (k : string) :
  k ∈ Engine.keyspace w <-> is_Some (db w !! k).
Proof.
  unfold Engine.keyspace. rewrite list_elem_of_fmap. split.
  - intros ([k' e] & -> & Hin). apply elem_of_map_to_list in Hin.
    cbn. eauto.
  - intros [e He]. exists (k, e). split; [reflexivity|].
    now apply elem_of_map_to_list.
Qed.

Lemma elem_of_matching (regex : string) (w : World) (k : string) :
  k ∈ matching regex w <->
  is_Some (db w !! k) /\ Engine.glob regex k = true.
Proof.
  unfold matching. rewrite list_elem_of_In, List.filter_In.
  rewrite <- list_elem_of_In, elem_of_keyspace. tauto.
Qed.

(** A page of the scan holds keys of the engine that match the pattern. *)
Lemma Scan_result (cursor : Z) (regex : string) (count : Z)
    (w w' : World) (next : Z) (page : list string) :
  Engine.Scan cursor regex count w = (Ok (next, page), w') ->
  forall k, k ∈ page -> k ∈ matching regex w.
Proof.
  intros H. apply command_inv in H as [(? & _)|(w0 & Hdb & _ & H)];
    [discriminate|].
  destruct (count <=? 0)%Z; [discriminate|]. injection H as _ <- _.
  intros k Hk. apply list_elem_of_In, List.filter_In in Hk as [Hk Hg].
  apply elem_of_matching. split; [|exact Hg].
  rewrite <- Hdb. apply elem_of_keyspace.
  apply list_elem_of_In in Hk.
  now apply (subseteq_drop (Z.to_nat cursor)), (subseteq_take (Z.to_nat count)).
Qed.

Lemma keys_loop_result (regex : string) (w0 : World) :
  forall (fuel : nat) (cursor : Z) (allKeys : list string)
         (w w' : World) (l : list string),
    db w = db w0 ->
    (forall k, k ∈ allKeys -> k ∈ matching regex w0) ->
    keys_loop fuel regex cursor allKeys w = (Ok l, w') ->
    forall k, k ∈ l -> k ∈ matching regex w0.
Proof.
  induction fuel as [|fuel IH]; intros cursor allKeys w w' l Hdb Hacc;
    cbn [keys_loop]; destruct (cursor =? endCursor)%Z;
    try (intros [= <- _]; exact Hacc); try discriminate.
  unfold mbind, M_bind, bind.
  destruct (Engine.Scan startCursor regex defaultCount w)
    as [[[c page]|e| |] w1] eqn:HS; try discriminate.
  apply (IH c (allKeys ++ page) w1 w' l).
  - destruct (reads_only_Scan _ _ _ _ _ _ HS). congruence.
  - intros k Hk. apply elem_of_app in Hk as [Hk|Hk]; [now apply Hacc|].
    pose proof (Scan_result _ _ _ _ _ _ _ HS k Hk) as Hm.
    apply elem_of_matching. apply elem_of_matching in Hm.
    now rewrite <- Hdb.
Qed.

(** X2.  Whatever the fault schedule and the fuel, a list that [keys]
    returns without error is not empty and holds only keys that the engine
    stores and that match the pattern. *)
Theorem keys_returns_matching_keys (fuel : nat) (regex : string)
    (w w' : World) (l : list string) :
  keys fuel regex w = (Ok l, w') ->
  l <> []
  /\ forall k, k ∈ l ->
       is_Some (db w !! k) /\ Engine.glob regex k = true.
Proof.
  unfold keys. unfold mbind, M_bind, bind.
  destruct (Engine.Scan startCursor regex defaultCount w)
    as [[[c page]|e| |] w1] eqn:HS; try discriminate.
  destruct (keys_loop fuel regex c ([] ++ page) w1)
    as [[allKeys|e| |] w2] eqn:HL; try discriminate.
  destruct (Nat.eqb_spec (length allKeys) 0) as [|Hlen]; [discriminate|].
  intros [= <- _]. split.
  - intros ->. now apply Hlen.
  - intros k Hk. apply elem_of_matching.
    apply (keys_loop_result regex w fuel c ([] ++ page) w1 w2 allKeys);
      [|exact (Scan_result _ _ _ _ _ _ _ HS)|exact HL|exact Hk].
    now destruct (reads_only_Scan _ _ _ _ _ _ HS).
Qed.

Lemma keys_returns_matching_keys_witness :
  is_Some (db first_write !! "/k") /\ Engine.glob "/*" "/k" = true.
Proof.
  assert (H : keys 0 "/*" first_write = (Ok ["/k"], first_write))
    by (vm_compute; reflexivity).
  apply (proj2 (keys_returns_matching_keys 0 "/*" first_write first_write
                  ["/k"] H)).
  now left.
Defined.

(** ** Errors of the engine *)

Lemma command_fault {A : Type} (body : World -> result A * World)
    (w : World) (fs : list bool) :
  faults w = true :: fs ->
  Engine.command body w
    = (Err Engine.transport_error, mkWorld (db w) (now w) fs).
Proof. unfold Engine.command. now intros ->. Qed.

(** X3.  An error of the engine on the first command of a call is returned
    as it is, not wrapped and not turned into [ErrKeyNotFound]; the two
    compare-and-swap calls return it with [false]; nothing is written and
    no further command is issued. *)
Theorem engine_error_is_passed_through (normalize : string -> string)
    (fuel : nat) (k : string) (v : Codec.bytes) (p : option KVPair)
    (o : option WriteOptions) (w : World) (fs : list bool) :
  faults w = true :: fs ->
  let e := Engine.transport_error in
  let w' := mkWorld (db w) (now w) fs in
  Put normalize k v o w = (Err e, w')
  /\ Get normalize k w = (Err e, w')
  /\ Delete normalize k w = (Err e, w')
  /\ Exists normalize k w = (Err e, w')
  /\ List normalize fuel k w = (Err e, w')
  /\ DeleteTree normalize fuel k w = (Err e, w')
  /\ AtomicPut normalize k v p o w = (Ok (false, None, Some e), w')
  /\ AtomicDelete normalize k p w = (Ok (false, Some e), w').
Proof.
  intros Hf e w'.
  assert (HG : Get normalize k w = (Err e, w')).
  { unfold Get, Engine.Get. unfold_M.
    now rewrite (command_fault _ w fs Hf). }
  assert (HK : forall regex, keys fuel regex w = (Err e, w')).
  { intros regex. unfold keys, Engine.Scan. unfold_M.
    now rewrite (command_fault _ w fs Hf). }
  repeat split.
  - unfold Put, timeBasedVersion, Engine.Set_. unfold_M.
    now rewrite (command_fault _ w fs Hf).
  - exact HG.
  - unfold Delete, Engine.Del. unfold_M.
    now rewrite (command_fault _ w fs Hf).
  - unfold Exists, Engine.Exists. now rewrite (command_fault _ w fs Hf).
  - unfold List. unfold mbind, M_bind, bind. now rewrite HK.
  - unfold DeleteTree. unfold mbind at 1. unfold M_bind, bind at 1.
    now rewrite HK.
  - unfold AtomicPut. unfold mbind at 1. unfold M_bind, bind at 1.
    unfold attempt at 1. now rewrite HG.
  - unfold AtomicDelete. unfold mbind at 1. unfold M_bind, bind at 1.
    unfold attempt at 1. now rewrite HG.
Qed.

Lemma engine_error_is_passed_through_witness :
  Get Normalize "k" (mkWorld (db first_write) 5 [true])
    = (Err Engine.transport_error, first_write).
Proof.
  exact (proj1 (proj2 (engine_error_is_passed_through Normalize 0 "k" None
                         None None (mkWorld (db first_write) 5 [true]) []
                         eq_refl))).
Defined.

(** ** Delete and Exists *)

Lemma Exists_quiet (normalize : string -> string) (k : string) (w : World) :
  quiet w ->
  Exists normalize k w = (Ok (Engine.present w (normalize k)), w).
Proof.
  intros Hq. unfold Exists, Engine.Exists. now rewrite command_quiet.
Qed.

(** X4.  After a [Delete] that returned no error, the key is gone: [Get]
    fails with [ErrKeyNotFound] and [Exists] answers [false].  Deleting a key
    that is not there is no error either, and changes nothing. *)
Theorem delete_removes_the_key (normalize : string -> string) (k : string)
    (w w1 : World) :
  (Delete normalize k w = (Ok tt, w1) ->
   quiet w1 ->
   Get normalize k w1 = (Err ErrKeyNotFound, w1)
   /\ Exists normalize k w1 = (Ok false, w1))
  /\ (quiet w ->
      db w !! normalize k = None ->
      exists w2, Delete normalize k w = (Ok tt, w2) /\ db w2 = db w).
Proof.
  split.
  - intros HD Hq. apply Delete_result in HD as [Hdb _].
    assert (Hk : db w1 !! normalize k = None)
      by (rewrite Hdb; apply lookup_delete_eq).
    split.
    + rewrite Get_quiet_eq by exact Hq. now rewrite Hk.
    + rewrite Exists_quiet by exact Hq. unfold Engine.present.
      now rewrite Hk.
  - intros Hq Hk. rewrite Delete_quiet by exact Hq.
    eexists. split; [reflexivity|]. cbn [db]. now apply delete_id.
Qed.

Lemma delete_removes_the_key_witness :
  Get Normalize "k" (run (Delete Normalize "k") first_write)
    = (Err ErrKeyNotFound, run (Delete Normalize "k") first_write)
  /\ exists w2, Delete Normalize "k" (empty_world 5) = (Ok tt, w2)
                /\ db w2 = db (empty_world 5).
Proof.
  destruct (delete_removes_the_key Normalize "k" first_write
              (run (Delete Normalize "k") first_write)) as [H1 _].
  destruct (delete_removes_the_key Normalize "k" (empty_world 5)
              (empty_world 5)) as [_ H2].
  split.
  - apply H1; reflexivity.
  - apply H2; reflexivity.
Defined.

(** X5.  On a key whose stored value is an envelope, [Exists] and [Get]
    agree: [Exists] answers [true] exactly when [Get] returns a pair, and
    [false] exactly when [Get] fails with [ErrKeyNotFound]; after a [Put]
    that returned no error it answers [true]. *)
Theorem exists_agrees_with_get (normalize : string -> string) (k : string)
    (w : World) :
  quiet w -> sound_at w (normalize k) ->
  (Exists normalize k w = (Ok true, w)
     <-> exists p, Get normalize k w = (Ok p, w))
  /\ (Exists normalize k w = (Ok false, w)
     <-> Get normalize k w = (Err ErrKeyNotFound, w))
  /\ (forall v o w0, Put normalize k v o w0 = (Ok tt, w) ->
        Exists normalize k w = (Ok true, w)).
Proof.
  intros Hq Hs.
  rewrite Exists_quiet, Get_quiet_eq by exact Hq.
  unfold sound_at, envelope, Engine.present in *.
  split; [|split].
  - destruct (db w !! normalize k) as [e|]; cbn in Hs.
    + destruct (Codec.unmarshal _) as [vv|]; [|congruence].
      split; [eauto | reflexivity].
    + split; [discriminate | intros [p ?]; discriminate].
  - destruct (db w !! normalize k) as [e|]; cbn in Hs.
    + destruct (Codec.unmarshal _) as [vv|]; [|congruence].
      split; discriminate.
    + split; reflexivity.
  - intros v o w0 HP. apply Put_ok in HP as [Hdb _].
    now rewrite Hdb, lookup_insert_eq.
Qed.

Lemma exists_agrees_with_get_witness :
  Exists Normalize "k" first_write = (Ok true, first_write).
Proof.
  assert (Hq : quiet first_write) by reflexivity.
  assert (Hs : sound_at first_write (Normalize "k"))
    by (vm_compute; discriminate).
  destruct (exists_agrees_with_get Normalize "k" first_write Hq Hs)
    as (_ & _ & H).
  apply (H (text "old") None (empty_world 5)). reflexivity.
Defined.

(** ** Calls on one key leave the other keys alone *)

Lemma touches_only_reads {A : Type} (k : string) (c : M A) :
  reads_only c -> touches_only k c.
Proof. intros Hc w r w' H j _. now destruct (Hc _ _ _ H) as [-> _]. Qed.

Lemma touches_only_bind {A B : Type} (k : string) (c : M A)
    (f : A -> M B) :
  touches_only k c -> (forall a, touches_only k (f a)) ->
  touches_only k (bind c f).
Proof.
  intros Hc Hf w r w'. unfold bind.
  destruct (c w) as [[a|e| |] w1] eqn:E; pose proof (Hc _ _ _ E) as H1.
  - intros H j Hj. rewrite (Hf _ _ _ _ H j Hj). now apply H1.
  - now intros [= _ <-].
  - now intros [= _ <-].
  - now intros [= _ <-].
Qed.

Lemma touches_only_attempt {A : Type} (k : string) (c : M A) :
  touches_only k c -> touches_only k (attempt c).
Proof.
  intros Hc w r w'. unfold attempt.
  destruct (c w) as [[a|e| |] w1] eqn:E; pose proof (Hc _ _ _ E) as H1;
    now intros [= _ <-].
Qed.

Lemma touches_only_command {A : Type} (k : string)
    (body : World -> result A * World) :
  (forall w r w', body w = (r, w') ->
     forall j, j <> k -> db w' !! j = db w !! j) ->
  touches_only k (Engine.command body).
Proof.
  intros Hb w r w' H j Hj.
  apply command_inv in H as [(_ & Hdb & _)|(w0 & Hdb & _ & H)].
  - now rewrite Hdb.
  - rewrite (Hb _ _ _ H j Hj). now rewrite Hdb.
Qed.

Lemma touches_only_Set (k v : string) (exp : Z) :
  touches_only k (Engine.Set_ k v exp).
Proof.
  apply touches_only_command. intros w r w'.
  destruct (0 <? exp)%Z; [destruct (0 <? Engine.ttl_sent exp)%Z|];
    intros [= _ <-] j Hj; try reflexivity;
    unfold Engine.store; cbn [db]; now rewrite lookup_insert_ne.
Qed.

Lemma touches_only_SetNX (k v : string) (exp : Z) :
  touches_only k (Engine.SetNX k v exp).
Proof.
  apply touches_only_command. intros w r w'.
  destruct ((exp =? 0)%Z || (0 <? Engine.ttl_sent exp)%Z);
    [destruct (db w !! k)|]; intros [= _ <-] j Hj; try reflexivity.
  unfold Engine.store. cbn [db]. now rewrite lookup_insert_ne.
Qed.

Lemma touches_only_Del (k : string) : touches_only k (Engine.Del [k]).
Proof.
  apply touches_only_command. intros w r w' [= _ <-] j Hj.
  cbn [db foldr]. now rewrite lookup_delete_ne.
Qed.

Section OneKey.

Variable normalize : string -> string.

Lemma touches_only_Put (k : string) (v : Codec.bytes)
    (o : option WriteOptions) :
  touches_only (normalize k) (Put normalize k v o).
Proof.
  apply touches_only_bind.
  - apply touches_only_reads. now intros w r w' [= _ <-].
  - intros version. apply touches_only_Set.
Qed.

Lemma touches_only_Delete (k : string) :
  touches_only (normalize k) (Delete normalize k).
Proof.
  apply touches_only_bind; [apply touches_only_Del|].
  intros n. apply touches_only_reads, reads_only_ret.
Qed.

Lemma touches_only_write_new (k : string) (v : Codec.bytes)
    (o : option WriteOptions) :
  touches_only (normalize k) (write_new normalize k v o).
Proof.
  apply touches_only_bind.
  - apply touches_only_reads. now intros w r w' [= _ <-].
  - intros version. apply touches_only_bind.
    + apply touches_only_attempt, touches_only_SetNX.
    + intros [b [e|]]; apply touches_only_reads, reads_only_ret.
Qed.

Lemma touches_only_AtomicPut (k : string) (v : Codec.bytes)
    (p : option KVPair) (o : option WriteOptions) :
  touches_only (normalize k) (AtomicPut normalize k v p o).
Proof.
  apply touches_only_bind.
  { apply touches_only_attempt, touches_only_reads, reads_only_Get. }
  intros [existedOne err].
  destruct (other_than ErrKeyNotFound err);
    [apply touches_only_reads, reads_only_ret|].
  destruct (is_nil p && negb (is_nil existedOne));
    [apply touches_only_reads, reads_only_ret|].
  apply touches_only_bind.
  - destruct p as [prev|]; [|apply touches_only_reads, reads_only_ret].
    destruct existedOne as [ex|];
      [|apply touches_only_reads, reads_only_ret].
    destruct (negb (LastIndex ex =? LastIndex prev));
      [apply touches_only_reads, reads_only_ret|].
    apply touches_only_bind;
      [apply touches_only_attempt, touches_only_Delete|].
    intros [u e]. apply touches_only_reads, reads_only_ret.
  - intros [e|];
      [apply touches_only_reads, reads_only_ret
      |apply touches_only_write_new].
Qed.

Lemma touches_only_AtomicDelete (k : string) (p : option KVPair) :
  touches_only (normalize k) (AtomicDelete normalize k p).
Proof.
  apply touches_only_bind.
  { apply touches_only_attempt, touches_only_reads, reads_only_Get. }
  intros [existedOne err].
  destruct (other_than ErrKeyNotFound err);
    [apply touches_only_reads, reads_only_ret|].
  destruct (is_nil p && negb (is_nil existedOne));
    [apply touches_only_reads, reads_only_ret|].
  apply touches_only_bind.
  - destruct p as [prev|]; [|apply touches_only_reads, reads_only_ret].
    destruct existedOne as [ex|];
      [|apply touches_only_reads, reads_only_ret].
    destruct (negb (LastIndex ex =? LastIndex prev));
      apply touches_only_reads, reads_only_ret.
  - intros [e|]; [apply touches_only_reads, reads_only_ret|].
    apply touches_only_bind;
      [apply touches_only_attempt, touches_only_Delete|].
    intros [u e]. apply touches_only_reads, reads_only_ret.
Qed.

End OneKey.

(** X6.  [Put], [Delete], [AtomicPut] and [AtomicDelete] on a key write
    under that key's flat key only: whatever the fault schedule and the way
    the call ends, a key with another flat key holds afterwards what it held
    before, and [Get] on it returns what it returned before. *)
Theorem calls_on_a_key_leave_the_others (normalize : string -> string)
    (k k' : string) (v : Codec.bytes) (p : option KVPair)
    (o : option WriteOptions) (w w1 : World) :
  normalize k' <> normalize k ->
  w1 = run (Put normalize k v o) w
  \/ w1 = run (Delete normalize k) w
  \/ w1 = run (AtomicPut normalize k v p o) w
  \/ w1 = run (AtomicDelete normalize k p) w ->
  db w1 !! normalize k' = db w !! normalize k'
  /\ (quiet w -> quiet w1 ->
      (Get normalize k' w1).1 = (Get normalize k' w).1).
Proof.
  intros Hne Hw1.
  assert (Hrun : forall (A : Type) (c : M A),
            touches_only (normalize k) c ->
            db (run c w) !! normalize k' = db w !! normalize k').
  { intros A c Hc. unfold run. destruct (c w) as [r w'] eqn:E.
    exact (Hc _ _ _ E _ Hne). }
  assert (Hdb : db w1 !! normalize k' = db w !! normalize k').
  { destruct Hw1 as [-> | [-> | [-> | ->]]]; apply Hrun.
    - apply touches_only_Put.
    - apply touches_only_Delete.
    - apply touches_only_AtomicPut.
    - apply touches_only_AtomicDelete. }
  split; [exact Hdb|]. intros Hq Hq1.
  rewrite !Get_quiet_eq by assumption. rewrite Hdb.
  destruct (db w !! normalize k') as [e|]; [|reflexivity].
  now destruct (Codec.unmarshal _).
Qed.

Lemma calls_on_a_key_leave_the_others_witness :
  db (run (Delete Normalize "other") first_write) !! Normalize "k"
    = db first_write !! Normalize "k".
Proof.
  apply (calls_on_a_key_leave_the_others Normalize "other" "k" None None None
           first_write (run (Delete Normalize "other") first_write)).
  - vm_compute. discriminate.
  - right. left. reflexivity.
Defined.

(** ** No call panics on what the adapter wrote *)

Lemma never_panics_ret {A : Type} (a : A) : never_panics (ret a).
Proof. intros w _. discriminate. Qed.

Lemma never_panics_fail {A : Type} (e : error) : never_panics (@fail A e).
Proof. intros w _. discriminate. Qed.

Lemma never_panics_bind {A B : Type} (c : M A) (k : A -> M B) :
  preserves c -> never_panics c -> (forall a, never_panics (k a)) ->
  never_panics (bind c k).
Proof.
  intros Hp Hc Hk w Hs. specialize (Hc w Hs). unfold bind.
  destruct (c w) as [[a|e| |] w1] eqn:E; cbn [fst] in *;
    try discriminate; [|congruence].
  apply Hk. exact (Hp _ _ _ Hs E).
Qed.

Lemma never_panics_attempt {A : Type} (c : M A) :
  never_panics c -> never_panics (attempt c).
Proof.
  intros Hc w Hs. specialize (Hc w Hs). unfold attempt.
  destruct (c w) as [[a|e| |] w1]; cbn [fst] in *;
    try discriminate; congruence.
Qed.

Lemma never_panics_command {A : Type} (body : World -> result A * World) :
  (forall w, (body w).1 <> Panic) -> never_panics (Engine.command body).
Proof.
  intros Hb w _. unfold Engine.command.
  destruct (faults w) as [|[] fs]; [apply Hb | discriminate | apply Hb].
Qed.

Lemma never_panics_Set (k v : string) (exp : Z) :
  never_panics (Engine.Set_ k v exp).
Proof.
  apply never_panics_command. intros w.
  destruct (0 <? exp)%Z; [destruct (0 <? Engine.ttl_sent exp)%Z|];
    discriminate.
Qed.

Lemma never_panics_SetNX (k v : string) (exp : Z) :
  never_panics (Engine.SetNX k v exp).
Proof.
  apply never_panics_command. intros w.
  destruct ((exp =? 0)%Z || (0 <? Engine.ttl_sent exp)%Z);
    [destruct (db w !! k)|]; discriminate.
Qed.

Lemma never_panics_Del (ks : list string) : never_panics (Engine.Del ks).
Proof. apply never_panics_command. intros w. now destruct ks. Qed.

Lemma never_panics_Exists (k : string) : never_panics (Engine.Exists k).
Proof. apply never_panics_command. discriminate. Qed.

Lemma never_panics_Scan (c : Z) (pat : string) (n : Z) :
  never_panics (Engine.Scan c pat n).
Proof.
  apply never_panics_command. intros w. now destruct (n <=? 0)%Z.
Qed.

Lemma never_panics_keys_loop (fuel : nat) (regex : string) :
  forall (cursor : Z) (allKeys : list string),
    never_panics (keys_loop fuel regex cursor allKeys).
Proof.
  induction fuel as [|fuel IH]; intros cursor allKeys; cbn [keys_loop];
    destruct (cursor =? endCursor)%Z; try apply never_panics_ret;
    [intros w _; discriminate|].
  apply never_panics_bind;
    [apply preserves_Scan | apply never_panics_Scan|].
  intros [c ks]. apply IH.
Qed.

Lemma never_panics_keys (fuel : nat) (regex : string) :
  never_panics (keys fuel regex).
Proof.
  apply never_panics_bind;
    [apply preserves_Scan | apply never_panics_Scan|].
  intros [c ks]. apply never_panics_bind;
    [apply preserves_keys_loop | apply never_panics_keys_loop|].
  intros allKeys. destruct (length allKeys =? 0)%nat;
    [apply never_panics_fail | apply never_panics_ret].
Qed.

Lemma never_panics_mget (ks : list string) : never_panics (mget ks).
Proof.
  intros w Hs. unfold mget. unfold_M.
  destruct (Engine.MGet ks w) as [[replies|e| |] w1] eqn:HM;
    cbn [fst]; try discriminate.
  - apply MGet_inv in HM as [_ ->].
    pose proof (mget_loop_collects w ks ks [] [] eq_refl) as HL.
    cbn [length app] in HL. rewrite HL; [discriminate|].
    intros k e _ He _. exact (proj1 (sound_iff w) Hs k e He).
  - apply command_inv in HM as [(? & _)|(w0 & _ & _ & H)];
      [discriminate|]. now destruct ks.
Qed.

Section NoPanic.

Variable normalize : string -> string.

Lemma never_panics_Get (k : string) : never_panics (Get normalize k).
Proof.
  intros w Hs. unfold Get. unfold_M.
  destruct (Engine.Get (normalize k) w) as [[s|e| |] w1] eqn:HG;
    apply Get_inv in HG as (_ & _ & Hr); cbn [fst]; try contradiction.
  - destruct Hr as (e & He & ->).
    destruct (proj1 (sound_iff w) Hs _ _ He) as [vv ->]. discriminate.
  - now destruct (error_eqb e RedisNil).
Qed.

Lemma never_panics_Put (k : string) (v : Codec.bytes)
    (o : option WriteOptions) : never_panics (Put normalize k v o).
Proof.
  apply never_panics_bind;
    [apply preserves_timeBasedVersion | intros w _; discriminate|].
  intros version. apply never_panics_Set.
Qed.

Lemma never_panics_Delete (k : string) : never_panics (Delete normalize k).
Proof.
  apply never_panics_bind; [apply preserves_Del | apply never_panics_Del|].
  intros n. apply never_panics_ret.
Qed.

Lemma never_panics_List (fuel : nat) (d : string) :
  never_panics (List normalize fuel d).
Proof.
  apply never_panics_bind;
    [apply preserves_keys | apply never_panics_keys|].
  intros ks. apply never_panics_mget.
Qed.

Lemma never_panics_DeleteTree (fuel : nat) (d : string) :
  never_panics (DeleteTree normalize fuel d).
Proof.
  apply never_panics_bind;
    [apply preserves_keys | apply never_panics_keys|].
  intros ks. apply never_panics_bind;
    [apply preserves_Del | apply never_panics_Del|].
  intros n. apply never_panics_ret.
Qed.

Lemma never_panics_write_new (k : string) (v : Codec.bytes)
    (o : option WriteOptions) : never_panics (write_new normalize k v o).
Proof.
  intros w _. unfold write_new, timeBasedVersion, Engine.SetNX,
    Engine.command. unfold_M.
  destruct (faults w) as [|[] fs]; cbn [db]; try discriminate;
    (destruct ((expiration_of o =? 0)%Z
               || (0 <? Engine.ttl_sent (expiration_of o))%Z);
     [now destruct (db w !! normalize k) | discriminate]).
Qed.

Lemma never_panics_AtomicPut (k : string) (v : Codec.bytes)
    (p : option KVPair) (o : option WriteOptions) :
  never_panics (AtomicPut normalize k v p o).
Proof.
  apply never_panics_bind.
  { apply preserves_attempt, preserves_adapter_Get. }
  { apply never_panics_attempt, never_panics_Get. }
  intros [existedOne err].
  destruct (other_than ErrKeyNotFound err); [apply never_panics_ret|].
  destruct (is_nil p && negb (is_nil existedOne)); [apply never_panics_ret|].
  assert (Hguard : preserves
    (match p with
     | None => ret None
     | Some previous =>
         match existedOne with
         | None => ret (Some ErrKeyModified)
         | Some existedOne =>
             if negb (LastIndex existedOne =? LastIndex previous)
             then ret (Some ErrKeyModified)
             else '(_, err) ← attempt (Delete normalize k); ret err
         end
     end)
    /\ never_panics
    (match p with
     | None => ret None
     | Some previous =>
         match existedOne with
         | None => ret (Some ErrKeyModified)
         | Some existedOne =>
             if negb (LastIndex existedOne =? LastIndex previous)
             then ret (Some ErrKeyModified)
             else '(_, err) ← attempt (Delete normalize k); ret err
         end
     end)).
  { destruct p as [prev|];
      [|split; [apply preserves_ret | apply never_panics_ret]].
    destruct existedOne as [ex|];
      [|split; [apply preserves_ret | apply never_panics_ret]].
    destruct (negb (LastIndex ex =? LastIndex prev));
      [split; [apply preserves_ret | apply never_panics_ret]|].
    split.
    - apply preserves_bind; [apply preserves_attempt, preserves_Delete|].
      intros [u e]. apply preserves_ret.
    - apply never_panics_bind.
      + apply preserves_attempt, preserves_Delete.
      + apply never_panics_attempt, never_panics_Delete.
      + intros [u e]. apply never_panics_ret. }
  destruct Hguard as [Hg1 Hg2].
  apply never_panics_bind; [exact Hg1 | exact Hg2|].
  intros [e|]; [apply never_panics_ret | apply never_panics_write_new].
Qed.

Lemma never_panics_AtomicDelete (k : string) (p : option KVPair) :
  never_panics (AtomicDelete normalize k p).
Proof.
  apply never_panics_bind.
  { apply preserves_attempt, preserves_adapter_Get. }
  { apply never_panics_attempt, never_panics_Get. }
  intros [existedOne err].
  destruct (other_than ErrKeyNotFound err); [apply never_panics_ret|].
  destruct (is_nil p && negb (is_nil existedOne)); [apply never_panics_ret|].
  apply never_panics_bind.
  - destruct p as [prev|]; [|apply preserves_ret].
    destruct existedOne as [ex|]; [|apply preserves_ret].
    destruct (negb (LastIndex ex =? LastIndex prev)); apply preserves_ret.
  - destruct p as [prev|]; [|apply never_panics_ret].
    destruct existedOne as [ex|]; [|apply never_panics_ret].
    destruct (negb (LastIndex ex =? LastIndex prev)); apply never_panics_ret.
  - intros [e|]; [apply never_panics_ret|].
    apply never_panics_bind.
    + apply preserves_attempt, preserves_Delete.
    + apply never_panics_attempt, never_panics_Delete.
    + intros [u e]. apply never_panics_ret.
Qed.

End NoPanic.

(** X7.  Every world the adapter brings an empty engine to, under any fault
    schedule and any passage of time, holds envelopes only, and on such a
    world no call of the adapter panics: the [panic] of [unmarshal] is out
    of reach as long as the adapter is the only writer. *)
Theorem adapter_never_panics_on_its_own_data
    (normalize : string -> string) (fuel : nat) (k : string)
    (v : Codec.bytes) (p : option KVPair) (o : option WriteOptions)
    (w : World) :
  reachable normalize w ->
  sound w
  /\ (Put normalize k v o w).1 <> Panic
  /\ (Get normalize k w).1 <> Panic
  /\ (Delete normalize k w).1 <> Panic
  /\ (Exists normalize k w).1 <> Panic
  /\ (List normalize fuel k w).1 <> Panic
  /\ (DeleteTree normalize fuel k w).1 <> Panic
  /\ (AtomicPut normalize k v p o w).1 <> Panic
  /\ (AtomicDelete normalize k p w).1 <> Panic.
Proof.
  intros Hr. pose proof (reachable_sound normalize w Hr) as Hs.
  split; [exact Hs|]. repeat split.
  - now apply never_panics_Put.
  - now apply never_panics_Get.
  - now apply never_panics_Delete.
  - now apply never_panics_Exists.
  - now apply never_panics_List.
  - now apply never_panics_DeleteTree.
  - now apply never_panics_AtomicPut.
  - now apply never_panics_AtomicDelete.
Qed.

Lemma adapter_never_panics_on_its_own_data_witness :
  (Get Normalize "k" first_write).1 <> Panic.
Proof.
  assert (Hr : reachable Normalize first_write).
  { unfold first_write. apply reach_Put. apply reach_empty. }
  exact (proj1 (proj2 (proj2
    (adapter_never_panics_on_its_own_data Normalize 0 "k" None None None
       first_write Hr)))).
Defined.

(** ** Compare-and-swap in sequence *)

Lemma stored_version_of_entry (w : World) (k : string) (e : entry)
    (vv : Codec.versionedValue) :
  db w !! k = Some e ->
  Codec.unmarshal (list_byte_of_string (payload e)) = Some vv ->
  sound_at w k /\ stored_version w k = Some (Codec.Version vv).
Proof.
  intros He Hvv. unfold sound_at, stored_version, envelope.
  rewrite He. cbn. rewrite Hvv. split; [discriminate | reflexivity].
Qed.

(** X8.  The pair a [Get] returned is a valid [previous] as long as nobody
    writes: with every command getting through, [AtomicDelete] with it
    succeeds and removes the key, and [AtomicPut] with it succeeds and
    stores the new value, for options whose expiration the engine takes
    (none, or a millisecond and more). *)
Theorem pair_read_is_accepted_as_previous (normalize : string -> string)
    (k : string) (v : Codec.bytes) (o : option WriteOptions)
    (w : World) (p : KVPair) :
  quiet w ->
  Get normalize k w = (Ok p, w) ->
  ttl_accepted (expiration_of o) ->
  AtomicPut normalize k v (Some p) o w
    = (Ok (true,
           Some (mkKVPair (normalize k) v
                          (uint64_of_int (Nanosecond (now w)))),
           None),
       Engine.store (normalize k) (sealed v w) (expiration_of o) w)
  /\ AtomicDelete normalize k (Some p) w
    = (Ok (true, None),
       mkWorld (delete (normalize k) (db w)) (now w) (faults w)).
Proof.
  intros Hq HG Ha. apply SetNX_accepts_iff in Ha.
  apply Get_result in HG as (_ & _ & e & vv & He & Hvv & ->).
  destruct (stored_version_of_entry w (normalize k) e vv He Hvv) as [Hs Hv].
  rewrite (AtomicPut_quiet normalize k v _ o w Hq Hs).
  rewrite (AtomicDelete_quiet normalize k _ w Hq Hs).
  rewrite Hv, Ha. cbn [key_modified LastIndex]. now rewrite N.eqb_refl.
Qed.

Lemma pair_read_is_accepted_as_previous_witness :
  (AtomicPut Normalize "k" (text "new") (Some (mkKVPair "k" (text "old") 5))
             (Some (mkWriteOptions (2 * Second))) first_write).1
    = Ok (true, Some (mkKVPair "/k" (text "new") 5), None)
  /\ db (run (AtomicPut Normalize "k" (text "new")
                        (Some (mkKVPair "k" (text "old") 5))
                        (Some (mkWriteOptions (2 * Second)))) first_write)
       !! "/k"
     = Some (mkEntry (sealed (text "new") first_write)
                     (Some (5 + 2 * Second)%Z))
  /\ AtomicDelete Normalize "k" (Some (mkKVPair "k" (text "old") 5))
                  first_write
     = (Ok (true, None), empty_world 5).
Proof.
  destruct (pair_read_is_accepted_as_previous Normalize "k" (text "new")
              (Some (mkWriteOptions (2 * Second))) first_write
              (mkKVPair "k" (text "old") 5)) as [HP HD].
  - reflexivity.
  - vm_compute. reflexivity.
  - right. vm_compute. discriminate.
  - unfold run. rewrite HP, HD. vm_compute. repeat split.
Defined.

(** A command that gets through with more of the schedule to come. *)
Lemma command_pass {A : Type} (body : World -> result A * World)
    (w : World) (fs : list bool) :
  faults w = false :: fs ->
  Engine.command body w = body (mkWorld (db w) (now w) fs).
Proof. unfold Engine.command. now intros ->. Qed.

(** X9.  [AtomicPut] replaces a value by a delete followed by a
    set-if-not-exists.  When the read and the delete get through and the
    set-if-not-exists meets an engine error, the call returns that error
    with [false], and the key is left deleted: the old value is lost and the
    new one is not written. *)
Theorem failed_replace_loses_the_value (normalize : string -> string)
    (k : string) (v : Codec.bytes) (prev : KVPair)
    (o : option WriteOptions) (w : World) (fs : list bool) :
  faults w = false :: false :: true :: fs ->
  stored_version w (normalize k) = Some (LastIndex prev) ->
  AtomicPut normalize k v (Some prev) o w
    = (Ok (false, None, Some Engine.transport_error),
       mkWorld (delete (normalize k) (db w)) (now w) fs)
  /\ is_Some (db w !! normalize k)
  /\ delete (normalize k) (db w) !! normalize k = None.
Proof.
  intros Hf Hv. unfold stored_version, envelope in Hv.
  destruct (db w !! normalize k) as [e|] eqn:He; [|discriminate].
  cbn in Hv.
  destruct (Codec.unmarshal (list_byte_of_string (payload e)))
    as [vv|] eqn:Hvv; [|discriminate].
  injection Hv as Hv.
  split; [|split; [eauto | apply lookup_delete_eq]].
  assert (HG : Get normalize k w
               = (Ok (mkKVPair k (Codec.Value vv) (Codec.Version vv)),
                  mkWorld (db w) (now w) (false :: true :: fs))).
  { unfold Get, Engine.Get. unfold_M.
    rewrite (command_pass _ w _ Hf). cbn [db]. now rewrite He, Hvv. }
  assert (HD : Delete normalize k
                 (mkWorld (db w) (now w) (false :: true :: fs))
               = (Ok tt,
                  mkWorld (delete (normalize k) (db w)) (now w)
                          (true :: fs))).
  { unfold Delete, Engine.Del. unfold_M.
    now rewrite (command_pass _ (mkWorld (db w) (now w) _) (true :: fs)
                   eq_refl). }
  assert (HW : write_new normalize k v o
                 (mkWorld (delete (normalize k) (db w)) (now w)
                          (true :: fs))
               = (Ok (false, None, Some Engine.transport_error),
                  mkWorld (delete (normalize k) (db w)) (now w) fs)).
  { unfold write_new, timeBasedVersion, Engine.SetNX. unfold_M.
    now rewrite (command_fault _ (mkWorld (delete _ (db w)) (now w) _) fs
                   eq_refl). }
  unfold AtomicPut. unfold mbind at 1. unfold M_bind, bind at 1.
  unfold attempt at 1. rewrite HG.
  cbn [other_than is_nil andb LastIndex]. rewrite Hv, N.eqb_refl.
  cbn [negb]. unfold_M. now rewrite HD, HW.
Qed.

Lemma failed_replace_loses_the_value_witness :
  AtomicPut Normalize "k" (text "new") (Some (mkKVPair "k" (text "old") 5))
            None
            (mkWorld (db first_write) 9 [false; false; true])
    = (Ok (false, None, Some Engine.transport_error), empty_world 9).
Proof.
  destruct (failed_replace_loses_the_value Normalize "k" (text "new")
              (mkKVPair "k" (text "old") 5) None
              (mkWorld (db first_write) 9 [false; false; true]) [])
    as [H _]; [reflexivity | vm_compute; reflexivity |].
  vm_compute in H |- *. exact H.
Defined.

(** X10.  The version is all that [AtomicPut] compares.  A pair read after
    one write is still accepted after another writer has replaced the value,
    when the second write fell on the same nanosecond offset of the clock:
    the stale [previous] is not detected and the newer value is
    overwritten, for options whose expiration the engine takes (none, or a
    millisecond and more). *)
Theorem stale_pair_accepted_on_equal_stamp (normalize : string -> string)
    (k : string) (v1 v2 v3 : Codec.bytes) (o : option WriteOptions)
    (w0 w1 w1' wa wb : World) (p : KVPair) :
  Put normalize k v1 None w0 = (Ok tt, w1) ->
  Get normalize k w1 = (Ok p, w1') ->
  Put normalize k v2 None wa = (Ok tt, wb) ->
  Nanosecond (now wa) = Nanosecond (now w0) ->
  quiet wb ->
  ttl_accepted (expiration_of o) ->
  Value p = v1
  /\ (exists version, Get normalize k wb = (Ok (mkKVPair k v2 version), wb))
  /\ AtomicPut normalize k v3 (Some p) o wb
     = (Ok (true,
            Some (mkKVPair (normalize k) v3
                           (uint64_of_int (Nanosecond (now wb)))),
            None),
        Engine.store (normalize k) (sealed v3 wb) (expiration_of o) wb).
Proof.
  intros HP1 HG HP2 Hns Hq Ha. apply SetNX_accepts_iff in Ha.
  apply Put_ok in HP1 as [Hdb1 _].
  apply Get_result in HG as (_ & _ & e & vv & He & Hvv & ->).
  rewrite Hdb1, lookup_insert_eq in He. injection He as <-.
  cbn [payload] in Hvv. rewrite unmarshal_sealed in Hvv.
  injection Hvv as <-. cbn [Value Codec.Value Codec.Version].
  split; [reflexivity|].
  pose proof (Put_ok normalize _ _ _ _ _ HP2) as [Hdb2 _].
  split.
  - exists (uint64_of_int (Nanosecond (now wa))).
    rewrite Get_quiet_eq by exact Hq.
    rewrite Hdb2, lookup_insert_eq. cbn [payload].
    now rewrite unmarshal_sealed.
  - assert (He2 : db wb !! normalize k
                  = Some (mkEntry (sealed v2 wa)
                            (Engine.deadline wa (expiration_of None))))
      by (rewrite Hdb2; apply lookup_insert_eq).
    destruct (stored_version_of_entry wb (normalize k) _ _ He2
                (unmarshal_sealed v2 wa)) as [Hs Hv].
    rewrite (AtomicPut_quiet normalize k v3 _ o wb Hq Hs), Hv, Ha.
    cbn [key_modified LastIndex Codec.Version].
    now rewrite Hns, N.eqb_refl.
Qed.

Lemma stale_pair_accepted_on_equal_stamp_witness :
  (AtomicPut Normalize "k" (text "new") (Some (mkKVPair "k" (text "old") 5))
             (Some (mkWriteOptions (3 * Second)))
             (run (Put Normalize "k" (text "mid") None)
                  (Engine.advance Second first_write))).1
  = Ok (true, Some (mkKVPair "/k" (text "new") 5), None).
Proof.
  pose (wa := Engine.advance Second first_write).
  pose (wb := run (Put Normalize "k" (text "mid") None) wa).
  destruct (stale_pair_accepted_on_equal_stamp Normalize "k" (text "old")
              (text "mid") (text "new")
              (Some (mkWriteOptions (3 * Second))) (empty_world 5)
              first_write first_write wa wb (mkKVPair "k" (text "old") 5))
    as (_ & _ & H); [reflexivity | vm_compute; reflexivity | reflexivity
                    | reflexivity | reflexivity
                    | right; vm_compute; discriminate |].
  apply (f_equal fst) in H. vm_compute in H |- *. exact H.
Defined.

(** ** Expiry *)

(** [Put] when every command gets through: the engine stores the sealed
    value, unless it turns the expiration down. *)
Lemma Put_quiet (normalize : string -> string) (k : string)
    (v : Codec.bytes) (o : option WriteOptions) (w : World) :
  quiet w ->
  Put normalize k v o w =
    if Engine.Set_accepts (expiration_of o)
    then (Ok tt, Engine.store (normalize k) (sealed v w) (expiration_of o) w)
    else (Err Engine.invalid_expire_time, w).
Proof.
  intros Hq. destruct w as [m t fs]. unfold quiet in Hq. cbn in Hq.
  subst fs.
  unfold Put, timeBasedVersion, Engine.Set_, Engine.Set_accepts,
    Engine.command, sealed.
  unfold_M. cbn [faults now].
  destruct (0 <? expiration_of o)%Z; cbn [negb orb]; [|reflexivity].
  now destruct (0 <? Engine.ttl_sent (expiration_of o))%Z.
Qed.

(** [Get] some time after a write that went through. *)
Lemma Get_after_store (normalize : string -> string) (k : string)
    (v : Codec.bytes) (expiration elapsed : Z) (w : World) :
  quiet w ->
  let later :=
    Engine.advance elapsed
      (Engine.store (normalize k) (sealed v w) expiration w) in
  Get normalize k later =
    if (0 <? expiration)%Z && (Engine.ttl_sent expiration <=? elapsed)%Z
    then (Err ErrKeyNotFound, later)
    else (Ok (mkKVPair k v (uint64_of_int (Nanosecond (now w)))), later).
Proof.
  intros Hq later.
  assert (Hql : quiet later) by exact Hq.
  rewrite Get_quiet_eq by exact Hql.
  unfold later, Engine.advance, Engine.store. cbn [db now].
  set (e := mkEntry (sealed v w) (Engine.deadline w expiration)).
  destruct ((0 <? expiration)%Z && (Engine.ttl_sent expiration <=? elapsed)%Z)
    eqn:Hexp.
  - apply andb_prop in Hexp as [Hpos Hle].
    assert (Hgone : filter (fun kv : string * entry =>
                      Engine.alive (now w + elapsed) kv.2 = true)
                      (<[normalize k := e]> (db w))
                    !! normalize k = None).
    { apply map_lookup_filter_None. right. intros x Hx.
      rewrite lookup_insert_eq in Hx. injection Hx as <-. cbn [snd].
      unfold e, Engine.alive, Engine.deadline. cbn [expire_at].
      rewrite Hpos. cbn [expire_at].
      apply Z.leb_le in Hle.
      destruct (Z.ltb_spec (now w + elapsed)
                  (now w + Engine.ttl_sent expiration)); [lia|].
      discriminate. }
    now rewrite Hgone.
  - assert (Hstay : filter (fun kv : string * entry =>
                      Engine.alive (now w + elapsed) kv.2 = true)
                      (<[normalize k := e]> (db w))
                    !! normalize k = Some e).
    { apply map_lookup_filter_Some. split; [apply lookup_insert_eq|].
      cbn [snd]. unfold e, Engine.alive, Engine.deadline. cbn [expire_at].
      destruct (Z.ltb_spec 0 expiration) as [Hpos|_]; cbn [expire_at];
        [|reflexivity].
      cbn [andb] in Hexp. apply Z.leb_gt in Hexp.
      apply Z.ltb_lt. lia. }
    rewrite Hstay. unfold e. cbn [payload]. rewrite unmarshal_sealed.
    reflexivity.
Qed.

(** The time to live the engine is given is the one asked for, cut to whole
    milliseconds. *)
Lemma ttl_sent_truncates (expiration : Z) :
  (0 <= expiration)%Z ->
  Engine.ttl_sent expiration
  = (expiration / Engine.time_Millisecond * Engine.time_Millisecond)%Z.
Proof.
  unfold Engine.ttl_sent, Engine.usePrecise, Engine.formatMs,
    Engine.formatSec, Engine.time_Millisecond, Engine.time_Second.
  intros H.
  destruct ((expiration <? 1000000000)%Z
            || negb (Z.rem expiration 1000000000 =? 0)%Z) eqn:Hp.
  - now rewrite Z.quot_div_nonneg by lia.
  - apply orb_false_elim in Hp as [_ Hr].
    apply negb_false_iff, Z.eqb_eq in Hr.
    pose proof (Z.quot_rem' expiration 1000000000) as Hqr.
    rewrite Hr in Hqr.
    set (q := (expiration ÷ 1000000000)%Z) in *. clearbody q.
    replace (q * 1000000000)%Z with expiration by lia.
    rewrite Hqr at 2.
    replace (1000000000 * q + 0)%Z with (q * 1000 * 1000000)%Z by lia.
    rewrite Z.div_mul by lia. lia.
Qed.

(** X11.  The time to live of [Put].  With options carrying a TTL of a
    millisecond or more, [Put] succeeds and the value lives for the TTL cut
    to whole milliseconds, which is what the client sends: [Get] returns it
    at every instant before that and fails with [ErrKeyNotFound] from then
    on, possibly just under a millisecond before the TTL asked for.  A
    positive TTL under a millisecond is sent as zero and turned down by the
    engine: [Put] returns that error and writes nothing.  With a TTL that is
    not positive, or with nil options, no expiration is sent and the value
    does not expire. *)
Theorem put_expires_after_its_ttl (normalize : string -> string)
    (k : string) (v : Codec.bytes) (ttl : Z) (w : World) (elapsed : Z) :
  quiet w ->
  let put := Put normalize k v (Some (mkWriteOptions ttl)) in
  let later := Engine.advance elapsed (run put w) in
  let plain := Put normalize k v None in
  let later_plain := Engine.advance elapsed (run plain w) in
  let pair := mkKVPair k v (uint64_of_int (Nanosecond (now w))) in
  ((Engine.time_Millisecond <= ttl)%Z ->
     (put w).1 = Ok tt
     /\ Engine.ttl_sent ttl
        = (ttl / Engine.time_Millisecond * Engine.time_Millisecond)%Z
     /\ ((elapsed < Engine.ttl_sent ttl)%Z ->
           Get normalize k later = (Ok pair, later))
     /\ ((Engine.ttl_sent ttl <= elapsed)%Z ->
           Get normalize k later = (Err ErrKeyNotFound, later)))
  /\ ((0 < ttl < Engine.time_Millisecond)%Z ->
        put w = (Err Engine.invalid_expire_time, w))
  /\ ((ttl <= 0)%Z ->
        (put w).1 = Ok tt /\ Get normalize k later = (Ok pair, later))
  /\ (plain w).1 = Ok tt
  /\ Get normalize k later_plain = (Ok pair, later_plain).
Proof.
  intros Hq put later plain later_plain pair.
  unfold later, later_plain, run, put, plain.
  rewrite !Put_quiet by exact Hq.
  pose proof (Set_accepts_iff ttl) as Hacc. unfold ttl_accepted_by_set in Hacc.
  cbn [expiration_of TTL] in *.
  split; [|split; [|split; [|split]]].
  - intros Hms. rewrite (proj2 Hacc) by now right. cbn [fst snd].
    split; [reflexivity|].
    split; [apply ttl_sent_truncates; unfold Engine.time_Millisecond in Hms;
            lia|].
    split; intros He; rewrite Get_after_store by exact Hq.
    + replace (Engine.ttl_sent ttl <=? elapsed)%Z with false
        by (symmetry; apply Z.leb_gt; lia).
      now rewrite andb_false_r.
    + replace (Engine.ttl_sent ttl <=? elapsed)%Z with true
        by (symmetry; apply Z.leb_le; lia).
      replace (0 <? ttl)%Z with true
        by (symmetry; apply Z.ltb_lt;
            unfold Engine.time_Millisecond in Hms; lia).
      reflexivity.
  - intros [Hpos Hlt].
    destruct (Engine.Set_accepts ttl); [|reflexivity].
    destruct (proj1 Hacc eq_refl); lia.
  - intros Hle. rewrite (proj2 Hacc) by now left. cbn [fst snd].
    split; [reflexivity|]. rewrite Get_after_store by exact Hq.
    replace (0 <? ttl)%Z with false by (symmetry; apply Z.ltb_ge; lia).
    reflexivity.
  - reflexivity.
  - cbn [Engine.Set_accepts]. unfold noExpiration.
    change (Engine.Set_accepts 0) with true. cbn [snd].
    now rewrite Get_after_store by exact Hq.
Qed.

Lemma put_expires_after_its_ttl_witness :
  Get Normalize "k"
      (Engine.advance 1200000
         (run (Put Normalize "k" (text "v") (Some (mkWriteOptions 1500000)))
              (empty_world 5)))
    = (Err ErrKeyNotFound, empty_world 1200005)
  /\ Get Normalize "k"
         (Engine.advance 999999
            (run (Put Normalize "k" (text "v")
                      (Some (mkWriteOptions 1500000)))
                 (empty_world 5)))
    = (Ok (mkKVPair "k" (text "v") 5),
       Engine.advance 999999
         (run (Put Normalize "k" (text "v") (Some (mkWriteOptions 1500000)))
              (empty_world 5)))
  /\ Put Normalize "k" (text "v") (Some (mkWriteOptions 7)) (empty_world 5)
    = (Err Engine.invalid_expire_time, empty_world 5).
Proof.
  assert (Hq : quiet (empty_world 5)) by reflexivity.
  split; [|split].
  - destruct (put_expires_after_its_ttl Normalize "k" (text "v") 1500000
                (empty_world 5) 1200000 Hq) as [H _].
    destruct H as (_ & _ & _ & H); [vm_compute; discriminate|].
    rewrite H; [vm_compute; reflexivity | vm_compute; discriminate].
  - destruct (put_expires_after_its_ttl Normalize "k" (text "v") 1500000
                (empty_world 5) 999999 Hq) as [H _].
    destruct H as (_ & _ & H & _); [vm_compute; discriminate|].
    rewrite H; [reflexivity | vm_compute; reflexivity].
  - destruct (put_expires_after_its_ttl Normalize "k" (text "v") 7
                (empty_world 5) 0 Hq) as (_ & H & _).
    apply H. split; vm_compute; reflexivity.
Defined.

(** ** Directories, by the first reply of the scan *)

Lemma keyspace_length (w : World) :
  length (Engine.keyspace w) = size (db w).
Proof.
  unfold Engine.keyspace. now rewrite length_fmap, length_map_to_list.
Qed.

Lemma lookup_foldr_delete_in (ks : list string) (m : gmap string entry)
    (k : string) :
  k ∈ ks -> foldr delete m ks !! k = None.
Proof.
  induction ks as [|k0 ks IH]; intros Hk; [now apply elem_of_nil in Hk|].
  cbn [foldr]. destruct (decide (k0 = k)) as [->|Hne].
  - apply lookup_delete_eq.
  - rewrite lookup_delete_ne by exact Hne. apply IH.
    apply elem_of_cons in Hk as [->|Hk]; [contradiction | exact Hk].
Qed.

Lemma lookup_foldr_delete_notin (ks : list string) (m : gmap string entry)
    (k : string) :
  k ∉ ks -> foldr delete m ks !! k = m !! k.
Proof.
  induction ks as [|k0 ks IH]; intros Hk; [reflexivity|].
  cbn [foldr]. apply not_elem_of_cons in Hk as [Hne Hk].
  rewrite lookup_delete_ne by congruence. now apply IH.
Qed.

Lemma Del_quiet (ks : list string) (w : World) :
  quiet w -> ks <> [] ->
  exists n, Engine.Del ks w =
    (Ok n, mkWorld (foldr delete (db w) ks) (now w) (faults w)).
Proof.
  intros Hq Hne. unfold Engine.Del. rewrite command_quiet by exact Hq.
  destruct ks; [contradiction|]. eexists. reflexivity.
Qed.

(** What [keys] does is settled by the first reply of the scan.  When that
    reply carries the end cursor, [keys] returns the keys of the reply, or
    [ErrKeyNotFound] when it has none. *)
Lemma keys_first_reply_final (fuel : nat) (regex : string) (w w1 : World)
    (page : list string) :
  Engine.Scan startCursor regex defaultCount w
    = (Ok (endCursor, page), w1) ->
  keys fuel regex w =
    (match page with
     | [] => Err ErrKeyNotFound
     | _ :: _ => Ok page
     end, w1).
Proof.
  intros HS. unfold keys. unfold mbind at 1. unfold M_bind, bind at 1.
  rewrite HS.
  destruct fuel; cbn [keys_loop Z.eqb endCursor]; unfold_M; cbn [app];
    now destruct page.
Qed.

(** When the first reply carries another cursor, [keys] sends the first
    request again, and again for as long as the engine answers it the same
    way. *)
Lemma keys_first_reply_open (regex : string) (w : World) (c : Z)
    (page : list string) :
  Engine.Scan startCursor regex defaultCount w = (Ok (c, page), w) ->
  c <> endCursor ->
  forall fuel, keys fuel regex w = (OutOfFuel, w).
Proof.
  intros HS Hc.
  assert (HL : forall fuel allKeys,
            keys_loop fuel regex c allKeys w = (OutOfFuel, w)).
  { induction fuel as [|fuel IH]; intros allKeys; cbn [keys_loop];
      (destruct (Z.eqb_spec c endCursor) as [E|_]; [contradiction|]);
      [reflexivity|].
    unfold mbind, M_bind, bind. rewrite HS. apply IH. }
  intros fuel. unfold keys. unfold mbind at 1. unfold M_bind, bind at 1.
  rewrite HS. unfold mbind, M_bind, bind. now rewrite HL.
Qed.

(** A first reply that carries the end cursor is the whole scan, and holds
    the keys that match the pattern: each of them, and no other. *)
Lemma Scan_final_reply (regex : string) (w w1 : World)
    (page : list string) :
  Engine.Scan startCursor regex defaultCount w
    = (Ok (endCursor, page), w1) ->
  forall k, k ∈ page <->
            is_Some (db w !! k) /\ Engine.glob regex k = true.
Proof.
  intros HS k. split.
  - intros Hk. apply elem_of_matching.
    exact (Scan_result _ _ _ _ _ _ _ HS k Hk).
  - intros [Hin Hg].
    apply command_inv in HS as [(? & _)|(w0 & Hdb & _ & H)];
      [discriminate|].
    unfold defaultCount, startCursor, endCursor in H.
    cbn [Z.leb Z.compare] in H.
    destruct (Z.ltb_spec (0 + 10) (Z.of_nat (length (Engine.keyspace w0))))
      as [_|Hge]; [discriminate|].
    injection H as <- _.
    change (Z.to_nat 0) with 0%nat. rewrite drop_0.
    rewrite take_ge by (change (Z.to_nat 10) with 10%nat; lia).
    apply list_elem_of_In, List.filter_In. split; [|exact Hg].
    apply list_elem_of_In, elem_of_keyspace. now rewrite Hdb.
Qed.

(** X12.  [DeleteTree], by the first reply of the scan.  When every command
    gets through and the first reply carries the end cursor and at least
    one key, [DeleteTree] deletes the keys of that reply, which are the
    keys that match the directory's pattern, and no other key.  Listing or
    deleting the directory again then fails with [ErrKeyNotFound], when the
    first reply of that scan carries the end cursor too. *)
Theorem delete_tree_removes_the_directory (normalize : string -> string)
    (fuel : nat) (d : string) (w : World) (page : list string) :
  quiet w ->
  Engine.Scan startCursor (normalize d +:+ "*") defaultCount w
    = (Ok (endCursor, page), w) ->
  page <> [] ->
  exists w',
    DeleteTree normalize fuel d w = (Ok tt, w')
    /\ db w' = foldr delete (db w) page
    /\ (forall k, db w' !! k =
                  if Engine.glob (normalize d +:+ "*") k then None
                  else db w !! k)
    /\ (forall page',
          Engine.Scan startCursor (normalize d +:+ "*") defaultCount w'
            = (Ok (endCursor, page'), w') ->
          List normalize fuel d w' = (Err ErrKeyNotFound, w')
          /\ DeleteTree normalize fuel d w' = (Err ErrKeyNotFound, w')).
Proof.
  intros Hq HS Hne. set (regex := normalize d +:+ "*") in *.
  pose proof (keys_first_reply_final fuel regex w w page HS) as HK.
  pose proof (Scan_final_reply regex w w page HS) as Hpage.
  destruct (Del_quiet page w Hq Hne) as [n HD].
  set (w' := mkWorld (foldr delete (db w) page) (now w) (faults w)) in *.
  assert (Hlook : forall k, db w' !! k =
                    if Engine.glob regex k then None else db w !! k).
  { intros k. unfold w'. cbn [db].
    destruct (Engine.glob regex k) eqn:Hg.
    - destruct (db w !! k) as [e|] eqn:He.
      + apply lookup_foldr_delete_in, Hpage. eauto.
      + rewrite lookup_foldr_delete_notin; [exact He|].
        intros Hin. apply Hpage in Hin as [[e' He'] _]. congruence.
    - apply lookup_foldr_delete_notin. intros Hin.
      apply Hpage in Hin as [_ Hg']. congruence. }
  exists w'. split; [|split; [reflexivity|split; [exact Hlook|]]].
  - unfold DeleteTree. fold regex. unfold mbind at 1.
    unfold M_bind, bind at 1. rewrite HK.
    destruct page as [|k0 ks]; [contradiction|].
    unfold_M. now rewrite HD.
  - intros page' HS'.
    pose proof (keys_first_reply_final fuel regex w' w' page' HS') as HK'.
    destruct page' as [|k ks].
    + destruct (keys_error_propagates normalize fuel d w' w' _ HK').
      now split.
    + destruct (proj1 (Scan_final_reply regex w' w' _ HS' k)
                  ltac:(now left)) as [[e He] Hg].
      rewrite Hlook, Hg in He. discriminate.
Qed.

Lemma delete_tree_removes_the_directory_witness :
  exists w',
    DeleteTree Normalize 0 "a" shelf = (Ok tt, w')
    /\ db w' !! "/a/b" = None
    /\ db w' !! "/a/c" = None
    /\ db w' !! "/b/d" = db shelf !! "/b/d"
    /\ is_Some (db w' !! "/b/d")
    /\ List Normalize 0 "a" w' = (Err ErrKeyNotFound, w').
Proof.
  destruct (delete_tree_removes_the_directory Normalize 0 "a" shelf
              (List.filter (Engine.glob "/a*") (Engine.keyspace shelf)))
    as (w' & H1 & Hdb & H2 & H3).
  - reflexivity.
  - vm_compute. reflexivity.
  - vm_compute. discriminate.
  - exists w'. split; [exact H1|].
    split; [rewrite H2; reflexivity|].
    split; [rewrite H2; reflexivity|].
    split; [rewrite H2; reflexivity|].
    split; [rewrite H2; vm_compute; eauto|].
    apply (H3 []).
    apply (f_equal snd) in H1. cbn [snd] in H1. rewrite <- H1.
    vm_compute. reflexivity.
Defined.

(** On a sound world, a stored key's slot is a pair under that key. *)
Lemma slot_pair_sound (w : World) (k : string) (e : entry) :
  sound w -> db w !! k = Some e ->
  exists vv,
    Codec.unmarshal (list_byte_of_string (payload e)) = Some vv
    /\ slot_pair w k
       = Some (mkKVPair k (Codec.Value vv) (Codec.Version vv)).
Proof.
  intros Hs He. destruct (proj1 (sound_iff w) Hs k e He) as [vv Hvv].
  exists vv. split; [exact Hvv|]. unfold slot_pair. rewrite He.
  destruct (String.eqb_spec (payload e) EmptyString) as [E|_].
  - rewrite E in Hvv. discriminate.
  - now rewrite Hvv.
Qed.

Lemma slot_pairs_keys (w : World) (l : list string) :
  sound w -> (forall k, k ∈ l -> is_Some (db w !! k)) ->
  map Key (omap (slot_pair w) l) = l.
Proof.
  intros Hs. induction l as [|k l IH]; intros Hl; [reflexivity|].
  destruct (Hl k ltac:(now left)) as [e He].
  destruct (slot_pair_sound w k e Hs He) as (vv & _ & Hsp).
  cbn [omap list_omap]. rewrite Hsp. cbn [map Key]. f_equal.
  apply IH. intros k' Hk'. apply Hl. now right.
Qed.

(** X13.  [List], by the first reply of the scan.  When every command gets
    through, the engine holds envelopes only, and the first reply carries
    the end cursor and at least one key, [List] returns one pair for each
    key of that reply, in the order of the reply.  Those keys are the keys
    that match the directory's pattern; a pair's [Key] is the flat key as
    the engine stores it, and its value and version are those of the
    envelope stored there. *)
Theorem list_returns_the_directory (normalize : string -> string)
    (fuel : nat) (d : string) (w : World) (page : list string) :
  quiet w -> sound w ->
  Engine.Scan startCursor (normalize d +:+ "*") defaultCount w
    = (Ok (endCursor, page), w) ->
  page <> [] ->
  exists pairs,
    List normalize fuel d w = (Ok pairs, w)
    /\ map Key pairs = page
    /\ (forall k, k ∈ page <->
          is_Some (db w !! k)
          /\ Engine.glob (normalize d +:+ "*") k = true)
    /\ forall p, p ∈ pairs ->
         exists e, db w !! Key p = Some e
           /\ Codec.unmarshal (list_byte_of_string (payload e))
              = Some (Codec.mkVersionedValue (Value p) (LastIndex p)).
Proof.
  intros Hq Hs HS Hne. set (regex := normalize d +:+ "*") in *.
  pose proof (keys_first_reply_final fuel regex w w page HS) as HK.
  pose proof (Scan_final_reply regex w w page HS) as Hpage.
  assert (Hin : forall k, k ∈ page -> is_Some (db w !! k))
    by (intros k Hk; now apply Hpage in Hk as [? _]).
  exists (omap (slot_pair w) page). split; [|split; [|split]].
  - unfold List. fold regex. unfold mbind at 1. unfold M_bind, bind at 1.
    rewrite HK. destruct page as [|k0 ks] eqn:Hm; [contradiction|].
    rewrite <- Hm in *.
    assert (HM : Engine.MGet page w
                 = (Ok (map (fun k => payload <$> db w !! k) page), w)).
    { unfold Engine.MGet. rewrite command_quiet by exact Hq.
      now rewrite Hm. }
    pose proof (mget_loop_collects w page page [] [] eq_refl) as HL.
    cbn [length app] in HL. unfold mget. unfold_M. rewrite HM, HL;
      [reflexivity|].
    intros k e _ He _. exact (proj1 (sound_iff w) Hs k e He).
  - now apply slot_pairs_keys.
  - exact Hpage.
  - intros p Hp. apply list_elem_of_omap in Hp as (k & Hk & Hsp).
    destruct (Hin k Hk) as [e He].
    destruct (slot_pair_sound w k e Hs He) as (vv & Hvv & Hsp').
    rewrite Hsp' in Hsp. injection Hsp as <-. cbn [Key Value LastIndex].
    exists e. split; [exact He|]. now destruct vv.
Qed.

Lemma list_returns_the_directory_witness :
  exists pairs,
    List Normalize 0 "a" shelf = (Ok pairs, shelf)
    /\ map Key pairs
       = List.filter (Engine.glob "/a*") (Engine.keyspace shelf)
    /\ length pairs = 2%nat
    /\ mkKVPair "/a/b" (text "v") 7 ∈ pairs
    /\ mkKVPair "/a/c" (text "v") 7 ∈ pairs.
Proof.
  assert (Hs : sound shelf).
  { apply (reachable_sound Normalize). unfold shelf. cbn [foldr].
    repeat apply reach_Put. apply reach_empty. }
  destruct (list_returns_the_directory Normalize 0 "a" shelf
              (List.filter (Engine.glob "/a*") (Engine.keyspace shelf)))
    as (pairs & H1 & H2 & _).
  - reflexivity.
  - exact Hs.
  - vm_compute. reflexivity.
  - vm_compute. discriminate.
  - exists pairs. split; [exact H1|]. split; [exact H2|].
    assert (E : (List Normalize 0 "a" shelf).1 = Ok pairs)
      by now rewrite H1.
    vm_compute in E. injection E as <-.
    split; [reflexivity|]. split; apply list_elem_of_In; cbn; tauto.
Defined.

(** ** The codec and the version source *)

(** X14.  Two envelopes with the same encoding are the same envelope:
    [marshal] loses nothing of the value (nil or not) or of the version. *)
Theorem marshal_is_injective (v v' : Codec.bytes) (n n' : N) :
  Codec.is_uint64 n -> Codec.is_uint64 n' ->
  Codec.marshal (Codec.mkVersionedValue v n)
    = Codec.marshal (Codec.mkVersionedValue v' n') ->
  v = v' /\ n = n'.
Proof.
  intros Hn Hn' E.
  pose proof (CodecFacts.unmarshal_marshal (Codec.mkVersionedValue v n) Hn)
    as H.
  rewrite E, CodecFacts.unmarshal_marshal in H by exact Hn'.
  now injection H as -> ->.
Qed.

Lemma marshal_is_injective_witness :
  text "a" = text "a" /\ 7 = 7.
Proof.
  apply (marshal_is_injective (text "a") (text "a") 7 7).
  - unfold Codec.is_uint64, Codec.uint64_max. lia.
  - unfold Codec.is_uint64, Codec.uint64_max. lia.
  - reflexivity.
Defined.

(** X15.  [timeBasedVersion] reads the clock and changes nothing; the
    version is the nanosecond offset within the current second, so it is
    below [10^9], and two readings a whole number of seconds apart give the
    same version. *)
Theorem version_is_the_nanosecond_offset (w : World) (seconds : Z) :
  exists version,
    timeBasedVersion w = (Ok version, w)
    /\ version < 1000000000
    /\ Z.of_N version = (now w mod 1000000000)%Z
    /\ (timeBasedVersion
          (mkWorld (db w) (now w + seconds * Second) (faults w))).1
       = Ok version.
Proof.
  exists (uint64_of_int (Nanosecond (now w))).
  split; [reflexivity|]. split; [apply stamp_bound|]. split.
  - unfold uint64_of_int, Nanosecond, Second.
    pose proof (Z.mod_pos_bound (now w) 1000000000 ltac:(lia)).
    rewrite Z.mod_small by lia. lia.
  - unfold timeBasedVersion. cbn [fst now]. unfold Nanosecond.
    now rewrite Z.mod_add by (unfold Second; lia).
Qed.

(** ** A failed compare-and-swap *)

(** The errors of the engine's commands are not [ErrKeyModified]. *)
Lemma command_error {A : Type} (body : World -> result A * World)
    (w w' : World) (e : error) :
  (forall w0 e0 w1, body w0 = (Err e0, w1) -> e0 <> ErrKeyModified) ->
  Engine.command body w = (Err e, w') -> e <> ErrKeyModified.
Proof.
  intros Hb H. apply command_inv in H as [([= ->] & _)|(w0 & _ & _ & H)].
  - discriminate.
  - exact (Hb _ _ _ H).
Qed.

Lemma Delete_error (normalize : string -> string) (k : string)
    (w w' : World) (e : error) :
  Delete normalize k w = (Err e, w') -> e <> ErrKeyModified.
Proof.
  unfold Delete. unfold_M.
  destruct (Engine.Del [normalize k] w) as [[n|e0| |] w1] eqn:HD;
    intros [= <- _].
  apply command_error in HD; [exact HD|]. intros w0 e1 w2 [=].
Qed.

Lemma write_new_error (normalize : string -> string) (k : string)
    (v : Codec.bytes) (o : option WriteOptions) (w w' : World) :
  write_new normalize k v o w
    <> (Ok (false, None, Some ErrKeyModified), w').
Proof.
  unfold write_new, timeBasedVersion. unfold_M.
  destruct (Engine.SetNX _ _ _ w) as [[b|e0| |] w1] eqn:HS;
    try discriminate.
  intros [= -> _]. apply command_error in HS; [now apply HS|].
  intros w0 e1 w2.
  destruct ((expiration_of o =? 0)%Z
            || (0 <? Engine.ttl_sent (expiration_of o))%Z);
    [now destruct (db w0 !! normalize k)|].
  now intros [= <- _].
Qed.

(** X16.  Whatever the fault schedule, a compare-and-swap that answers
    [ErrKeyModified] has written nothing: the keyspace is as it was before
    the call, for [AtomicPut] and for [AtomicDelete]. *)
Theorem key_modified_writes_nothing (normalize : string -> string)
    (k : string) (v : Codec.bytes) (p : option KVPair)
    (o : option WriteOptions) (w w' : World) :
  (AtomicPut normalize k v p o w
     = (Ok (false, None, Some ErrKeyModified), w') ->
   db w' = db w)
  /\ (AtomicDelete normalize k p w = (Ok (false, Some ErrKeyModified), w') ->
      db w' = db w).
Proof.
  split.
  - unfold AtomicPut. unfold mbind at 1. unfold M_bind, bind at 1.
    unfold attempt at 1.
    destruct (Get normalize k w) as [r1 w1] eqn:HG.
    destruct (reads_only_Get normalize k _ _ _ HG) as [Hdb1 _].
    assert (Hgo : forall existedOne err,
      (if other_than ErrKeyNotFound err then ret (false, None, err)
       else if is_nil p && negb (is_nil existedOne)
       then ret (false, None, Some ErrKeyModified)
       else
         returned ←
           match p with
           | None => ret None
           | Some previous =>
               match existedOne with
               | None => ret (Some ErrKeyModified)
               | Some existedOne =>
                   if negb (LastIndex existedOne =? LastIndex previous)
                   then ret (Some ErrKeyModified)
                   else '(_, err) ← attempt (Delete normalize k); ret err
               end
           end;
         match returned with
         | Some e => ret (false, None, Some e)
         | None => write_new normalize k v o
         end) w1 = (Ok (false, None, Some ErrKeyModified), w') ->
      db w' = db w).
    { intros existedOne err.
      destruct (other_than ErrKeyNotFound err); [now intros [= _ <-]|].
      destruct (is_nil p && negb (is_nil existedOne)); [now intros [= <-]|].
      destruct p as [prev|].
      - destruct existedOne as [ex|]; [|now intros [= <-]].
        unfold mbind at 1. unfold M_bind, bind at 1.
        destruct (negb (LastIndex ex =? LastIndex prev));
          [now intros [= <-]|].
        unfold mbind at 1. unfold M_bind, bind at 1. unfold attempt at 1.
        destruct (Delete normalize k w1) as [[[]|e| |] w2] eqn:HD;
          try discriminate.
        + unfold ret at 1. intros H. now apply write_new_error in H.
        + unfold ret at 1 2. intros [= -> _].
          now apply Delete_error in HD.
      - unfold mbind at 1. unfold M_bind, bind at 1. unfold ret at 1.
        intros H. now apply write_new_error in H. }
    destruct r1 as [a|e| |]; try discriminate; apply Hgo.
  - unfold AtomicDelete. unfold mbind at 1. unfold M_bind, bind at 1.
    unfold attempt at 1.
    destruct (Get normalize k w) as [r1 w1] eqn:HG.
    destruct (reads_only_Get normalize k _ _ _ HG) as [Hdb1 _].
    assert (Hgo : forall existedOne err,
      (if other_than ErrKeyNotFound err then ret (false, err)
       else if is_nil p && negb (is_nil existedOne)
       then ret (false, Some ErrKeyModified)
       else
         returned ←
           match p with
           | None => ret None
           | Some previous =>
               match existedOne with
               | None => ret (Some ErrKeyModified)
               | Some existedOne =>
                   if negb (LastIndex existedOne =? LastIndex previous)
                   then ret (Some ErrKeyModified)
                   else ret None
               end
           end;
         match returned with
         | Some e => ret (false, Some e)
         | None =>
             '(_, err) ← attempt (Delete normalize k); ret (true, err)
         end) w1 = (Ok (false, Some ErrKeyModified), w') ->
      db w' = db w).
    { intros existedOne err.
      destruct (other_than ErrKeyNotFound err); [now intros [= _ <-]|].
      destruct (is_nil p && negb (is_nil existedOne)); [now intros [= <-]|].
      assert (Hdel : forall w2,
                ('(_, err) ← attempt (Delete normalize k); ret (true, err))
                  w2 <> (Ok (false, Some ErrKeyModified), w')).
      { intros w2. unfold_M.
        now destruct (Delete normalize k w2) as [[[]|e| |] w3]. }
      destruct p as [prev|].
      - destruct existedOne as [ex|]; [|now intros [= <-]].
        unfold mbind at 1. unfold M_bind, bind at 1.
        destruct (negb (LastIndex ex =? LastIndex prev));
          [now intros [= <-]|].
        unfold ret at 1. intros H. now apply Hdel in H.
      - unfold mbind at 1. unfold M_bind, bind at 1. unfold ret at 1.
        intros H. now apply Hdel in H. }
    destruct r1 as [a|e| |]; try discriminate; apply Hgo.
Qed.

Lemma key_modified_writes_nothing_witness :
  db (run (AtomicPut Normalize "k" (text "new")
             (Some (mkKVPair "k" (text "old") 4)) None) first_write)
  = db first_write.
Proof.
  apply (proj1 (key_modified_writes_nothing Normalize "k" (text "new")
                  (Some (mkKVPair "k" (text "old") 4)) None first_write
                  (run (AtomicPut Normalize "k" (text "new")
                          (Some (mkKVPair "k" (text "old") 4)) None)
                       first_write))).
  vm_compute. reflexivity.
Defined.

(** ** The scan that ends, and the scan that does not *)

(** X17.  When the first reply of the scan carries the end cursor and no
    key, [List] and [DeleteTree] of the directory fail with
    [ErrKeyNotFound] and leave the keyspace as it was.  The reply is such
    only when no key of the engine matches the directory's pattern. *)
Theorem empty_directory_is_not_found (normalize : string -> string)
    (fuel : nat) (d : string) (w w1 : World) :
  Engine.Scan startCursor (normalize d +:+ "*") defaultCount w
    = (Ok (endCursor, []), w1) ->
  List normalize fuel d w = (Err ErrKeyNotFound, w1)
  /\ DeleteTree normalize fuel d w = (Err ErrKeyNotFound, w1)
  /\ db w1 = db w
  /\ (forall k, is_Some (db w !! k) ->
        Engine.glob (normalize d +:+ "*") k = false).
Proof.
  intros HS.
  pose proof (keys_first_reply_final fuel _ w w1 [] HS) as HK.
  destruct (keys_error_propagates normalize fuel d w w1 _ HK) as [HD HL].
  split; [exact HL|]. split; [exact HD|]. split.
  - now destruct (reads_only_Scan _ _ _ _ _ _ HS).
  - intros k Hk.
    destruct (Engine.glob (normalize d +:+ "*") k) eqn:Hg; [|reflexivity].
    pose proof (proj2 (Scan_final_reply _ w w1 [] HS k) (conj Hk Hg)) as Hin.
    now apply elem_of_nil in Hin.
Qed.

Lemma empty_directory_is_not_found_witness :
  List Normalize 0 "c" shelf = (Err ErrKeyNotFound, shelf)
  /\ DeleteTree Normalize 0 "c" shelf = (Err ErrKeyNotFound, shelf)
  /\ size (db shelf) = 3%nat.
Proof.
  destruct (empty_directory_is_not_found Normalize 0 "c" shelf shelf)
    as (HL & HD & _).
  - vm_compute. reflexivity.
  - split; [exact HL|]. split; [exact HD|]. vm_compute. reflexivity.
Defined.

(** X18.  When the first reply of the scan carries a cursor other than the
    end cursor, the loop of [keys] sends the first request again instead of
    resuming from that cursor.  With the engine answering it the same way
    every time, [keys], and with it [List] and [DeleteTree] of a directory
    with that pattern, has not returned after any number of rounds, whether
    keys match or not. *)
Theorem scan_past_one_page_never_returns (normalize : string -> string)
    (fuel : nat) (regex : string) (w : World) (c : Z)
    (page : list string) :
  Engine.Scan startCursor regex defaultCount w = (Ok (c, page), w) ->
  c <> endCursor ->
  keys fuel regex w = (OutOfFuel, w)
  /\ (forall d, normalize d +:+ "*" = regex ->
        List normalize fuel d w = (OutOfFuel, w)
        /\ DeleteTree normalize fuel d w = (OutOfFuel, w)).
Proof.
  intros HS Hc.
  pose proof (keys_first_reply_open regex w c page HS Hc fuel) as H.
  split; [exact H|]. intros d <-.
  split; unfold List, DeleteTree; unfold mbind at 1;
    unfold M_bind, bind at 1; now rewrite H.
Qed.

Lemma scan_past_one_page_never_returns_witness :
  List Normalize 1000 "a" crowded = (OutOfFuel, crowded)
  /\ DeleteTree Normalize 1000 "a" crowded = (OutOfFuel, crowded).
Proof.
  destruct (scan_past_one_page_never_returns Normalize 1000 "/a*" crowded
              10 (List.filter (Engine.glob "/a*")
                    (take 10 (Engine.keyspace crowded)))) as [_ H].
  - vm_compute. reflexivity.
  - discriminate.
  - apply (H "a"). reflexivity.
Defined.
